(** * MindSort item selection: the clustering and plain-repeat schedulers

    A shallow embedding of [src/SelectionAlgorithm.ts] together with the
    properties its specification states about it.

    Conventions of the embedding.
    - An [ItemPair] is a mutable JavaScript object.  The schedulers compare
      item pairs with [===] (object identity) and read [answers.length]
      anew on every call, so an item pair is modelled as a reference
      ([ItemRef]) into a store ([Heap]) that the caller may change between
      calls.
    - JavaScript numbers that can turn into [NaN] or [undefined] in this
      code are modelled by [jsnum]; the centroid seeds are binary64 numbers;
      all other numbers are integers and modelled by [Z] or [nat].
    - [Math.random] is modelled by the stream of its outcomes, [nat -> Q]:
      draw [k] is the value returned by the [k]-th call made by one shuffle.
    - A thrown exception is modelled by [Throw]; state changes made before the
      throw persist, as they do in the source.
    - [kmeans] comes from the package [kmeans-ts]; the strategies take it as
      an argument, and the properties that need it assume its contract.

    Layout: the embedding (one module per class of the source), the
    vocabulary of the properties and the data of the examples, then the
    facts, class by class. *)

From Stdlib Require Import List ZArith QArith Bool Lia Permutation PeanoNat.
From Stdlib Require Import Sorting.Sorted.
From Stdlib Require Import Floats.PrimFloat Floats.FloatOps Floats.SpecFloat
  Floats.FloatAxioms.
From Stdlib Require Import Numbers.Cyclic.Int63.Uint63.
Import ListNotations.

Close Scope Q_scope.
Set Implicit Arguments.

(* ================================================================== *)
(** ** JavaScript prelude *)
(* ================================================================== *)

Module JS.

(** The numbers of the round bookkeeping: ordinary integers, [NaN]
    (the sum of a number and [undefined]) and [undefined] (an array read
    past the end). *)
Inductive jsnum : Type :=
| Num (z : Z)
| NaN
| Undefined.

(** [a + b] on numbers; [undefined] converts to [NaN]. *)
Definition add (a b : jsnum) : jsnum :=
  match a, b with
  | Num x, Num y => Num (x + y)
  | _, _ => NaN
  end.

(** [a - b]. *)
Definition sub (a b : jsnum) : jsnum :=
  match a, b with
  | Num x, Num y => Num (x - y)
  | _, _ => NaN
  end.

(** [a > b]: false as soon as one side is [NaN] or [undefined]. *)
Definition gt (a b : jsnum) : bool :=
  match a, b with
  | Num x, Num y => (x >? y)%Z
  | _, _ => false
  end.

(** [a <= b], with the same treatment of [NaN]. *)
Definition le (a b : jsnum) : bool :=
  match a, b with
  | Num x, Num y => (x <=? y)%Z
  | _, _ => false
  end.

(** [a === b]. *)
Definition strict_eq (a b : jsnum) : bool :=
  match a, b with
  | Num x, Num y => (x =? y)%Z
  | Undefined, Undefined => true
  | _, _ => false
  end.

(** [arr[i]] on an array of numbers. *)
Definition get (arr : list Z) (i : nat) : jsnum :=
  match nth_error arr i with
  | Some z => Num z
  | None => Undefined
  end.

(** The exceptions this code can raise: all of them are the runtime's
    [TypeError] (a property read on [undefined], or [reduce] of an empty
    array without initial value). *)
Inductive exn : Type :=
| TypeError.

Inductive result (A : Type) : Type :=
| Ok (a : A)
| Throw (e : exn).
Arguments Throw {A} e.

Definition bind {A B : Type} (r : result A) (k : A -> result B) : result B :=
  match r with
  | Ok a => k a
  | Throw e => Throw e
  end.

(** [arr.sort(cmp)].  The comparator's result is kept as its sign
    ([Lt]: negative, [Eq]: zero, [Gt]: positive).  [Array.prototype.sort]
    is stable (ECMAScript 2019), so for a comparator induced by numeric
    keys its result is the unique stable ordering, which insertion from the
    right computes. *)
Fixpoint insert {A : Type} (cmp : A -> A -> comparison) (x : A) (l : list A)
  : list A :=
  match l with
  | [] => [x]
  | y :: l' =>
      match cmp x y with
      | Gt => y :: insert cmp x l'
      | _ => x :: l
      end
  end.

Definition sort {A : Type} (cmp : A -> A -> comparison) (l : list A) : list A :=
  fold_right (insert cmp) [] l.

(** [arr.indexOf(v)] on an array of integers, [None] for [-1]. *)
Fixpoint indexOf (arr : list nat) (v : nat) : option nat :=
  match arr with
  | [] => None
  | x :: arr' =>
      if Nat.eqb x v then Some 0%nat
      else option_map S (indexOf arr' v)
  end.

(** [arr.filter((value, index) => p value index)], indices from [i]. *)
Fixpoint filteri {A : Type} (p : A -> nat -> bool) (i : nat) (arr : list A)
  : list A :=
  match arr with
  | [] => []
  | x :: arr' =>
      if p x i then x :: filteri p (S i) arr' else filteri p (S i) arr'
  end.

(** [arr.slice(a, b)] for [0 <= a <= b]. *)
Definition slice {A : Type} (arr : list A) (a b : nat) : list A :=
  firstn (b - a) (skipn a arr).

(** [arr[arr.length - 1]], [None] for [undefined]. *)
Definition last_elem {A : Type} (arr : list A) : option A :=
  nth_error arr (length arr - 1).

End JS.

Notation "x <- r ;; k" := (JS.bind r (fun x => k))
  (at level 61, r at next level, right associativity).

(* ================================================================== *)
(** ** Item pairs *)
(* ================================================================== *)

(** A reference to an [ItemPair] object. *)
Definition ItemRef : Type := nat.

(** The fields of [ItemPair] this code reads.  Of [answers] only the length
    is ever read. *)
Record ItemPair : Type := mkItemPair {
  index : nat;
  answers_length : nat;
  fromPosition : Z * Z
}.

(** The store of item pairs. *)
Definition Heap : Type := ItemRef -> ItemPair.

(** [a === b] on item pairs. *)
Definition same_item (a b : ItemRef) : bool := Nat.eqb a b.

(** [arr.includes(item)]. *)
Definition includes (arr : list ItemRef) (item : ItemRef) : bool :=
  existsb (same_item item) arr.

(* ================================================================== *)
(** ** SelectionAlgorithm.shuffleArray *)
(* ================================================================== *)

Module SelectionAlgorithm.

(** [todo.map((value) => ({ value, sort: Math.random() }))]: the element
    at position [k] gets draw [k]. *)
Fixpoint tag (rnd : nat -> Q) (k : nat) (todo : list ItemRef)
  : list (ItemRef * Q) :=
  match todo with
  | [] => []
  | value :: todo' => (value, rnd k) :: tag rnd (S k) todo'
  end.

(** [(a, b) => a.sort - b.sort], by its sign. *)
Definition by_sort (a b : ItemRef * Q) : comparison :=
  Qcompare (snd a) (snd b).

Definition shuffleArray (rnd : nat -> Q) (todo : list ItemRef) : list ItemRef :=
  map fst (JS.sort by_sort (tag rnd 0 todo)).

End SelectionAlgorithm.

(* ================================================================== *)
(** ** Cluster *)
(* ================================================================== *)

Module Cluster.

Record t : Type := mk {
  ID : nat;
  sortingID : Z;
  timesSeen : Z;
  itemPairs : list ItemRef
}.

(** [new Cluster(ID, itemPairs)]. *)
Definition new (ID : nat) (itemPairs : list ItemRef) : t :=
  mk ID (Z.of_nat ID) 0 itemPairs.

(** [increaseSortingID].  Its only caller passes [this.clusters.length],
    which is positive there, so the remainder is a number; JavaScript's
    [%] takes the sign of the dividend, as [Z.rem] does. *)
Definition increaseSortingID (numberOfClusters : nat) (this : t) : t :=
  mk (ID this)
     (Z.rem (sortingID this + 1) (Z.of_nat numberOfClusters))
     (timesSeen this)
     (itemPairs this).

Definition allWordsSeenOnce (h : Heap) (this : t) : bool :=
  Nat.eqb
    (length
       (filter (fun numberOfAnswers => (numberOfAnswers - timesSeen this =? 1)%Z)
               (map (fun item => Z.of_nat (answers_length (h item)))
                    (itemPairs this))))
    (length (itemPairs this)).

(** [getTimesSeen]: the cluster after the call and the returned number. *)
Definition getTimesSeen (h : Heap) (this : t) : t * Z :=
  let this' :=
    if allWordsSeenOnce h this
    then mk (ID this) (sortingID this) (timesSeen this + 1) (itemPairs this)
    else this in
  (this', timesSeen this').

End Cluster.

(* ================================================================== *)
(** ** ClusteringAlgorithm *)
(* ================================================================== *)

Module ClusteringAlgorithm.

Record t : Type := mk {
  clusters : list Cluster.t;
  itemPairs : list ItemRef;
  rounds : list Z;
  roundID : nat;
  neededPreviousRounds : JS.jsnum;
  needThisRound : JS.jsnum;
  needToGoToNextRound : JS.jsnum
}.

(** The constructor, given the result of [computeClusters(itemPairs)]. *)
Definition new (computed : list Cluster.t) (itemPairs : list ItemRef) : t :=
  let rounds := [4; 2; 1]%Z in
  let roundID := 0%nat in
  mk computed itemPairs rounds roundID
     (JS.Num 0) (JS.get rounds roundID) (JS.get rounds roundID).

Definition set_clusters (this : t) (cs : list Cluster.t) : t :=
  mk cs (itemPairs this) (rounds this) (roundID this)
     (neededPreviousRounds this) (needThisRound this)
     (needToGoToNextRound this).

(** [getClusterOfItem]: the first cluster that includes the item, [None]
    for [undefined]. *)
Definition getClusterOfItem (this : t) (itemPair : ItemRef)
  : option Cluster.t :=
  hd_error
    (filter (fun cluster => includes (Cluster.itemPairs cluster) itemPair)
            (clusters this)).

(** The comparator of [sortTodoList], for items that have a cluster. *)
Definition sortingID_of (this : t) (itemPair : ItemRef) : Z :=
  match getClusterOfItem this itemPair with
  | Some c => Cluster.sortingID c
  | None => 0
  end.

Definition by_sortingID (this : t) (a b : ItemRef) : comparison :=
  Z.compare (sortingID_of this a - sortingID_of this b) 0.

(** [sortTodoList].  The comparator reads [.sortingID] of
    [getClusterOfItem(..)] and throws a [TypeError] when that is
    [undefined].  An array of fewer than two elements is returned without
    any comparison; in a longer one every element is compared at least
    once, so the sort throws exactly when some element has no cluster. *)
Definition sortTodoList (this : t) (todo : list ItemRef)
  : JS.result (list ItemRef) :=
  if (length todo <? 2)%nat then JS.Ok todo
  else if forallb (fun i => match getClusterOfItem this i with
                            | Some _ => true
                            | None => false
                            end) todo
       then JS.Ok (JS.sort (by_sortingID this) todo)
       else JS.Throw JS.TypeError.

(** [endOfSession].  [reduce] without initial value throws on an empty
    array. *)
Definition endOfSession (this : t) (h : Heap) (todo : list ItemRef)
  : JS.result bool :=
  match rounds this with
  | [] => JS.Throw JS.TypeError
  | r :: rs =>
      let totalTimesSeen := fold_left Z.add rs r in
      JS.Ok
        (Nat.eqb
           (length
              (filter (fun a => (a =? totalTimesSeen)%Z)
                      (map (fun i => Z.of_nat (answers_length (h i))) todo)))
           (length todo)
         && Nat.eqb (roundID this + 1) (length (rounds this)))
  end.

(** Lines 125-128: the step to the next round. *)
Definition advanceRound (this : t) : t :=
  let neededPreviousRounds' :=
    JS.add (neededPreviousRounds this) (JS.get (rounds this) (roundID this)) in
  let roundID' := (roundID this + 1)%nat in
  let needThisRound' := JS.get (rounds this) roundID' in
  mk (clusters this) (itemPairs this) (rounds this) roundID'
     neededPreviousRounds' needThisRound'
     (JS.add (needToGoToNextRound this) needThisRound').

(** [currentCluster.getTimesSeen()] changes the cluster object that
    [getClusterOfItem] found, which is an element of [this.clusters]:
    the first cluster that includes the item is replaced. *)
Fixpoint update_cluster_of (h : Heap) (itemPair : ItemRef)
  (cs : list Cluster.t) : list Cluster.t :=
  match cs with
  | [] => []
  | c :: cs' =>
      if includes (Cluster.itemPairs c) itemPair
      then fst (Cluster.getTimesSeen h c) :: cs'
      else c :: update_cluster_of h itemPair cs'
  end.

(** Lines 154-163.  [todo] is not empty here. *)
Definition avoidRepeat (previousItem : option ItemRef) (todo : list ItemRef)
  : list ItemRef :=
  match todo with
  | [] => []
  | currentFirst :: rest =>
      match previousItem with
      | Some p =>
          if same_item currentFirst p then
            match rest with
            | currentSecond :: rest' => currentSecond :: currentFirst :: rest'
            | [] => [currentFirst]
            end
          else todo
      | None => todo
      end
  end.

(** [updateToDo]: the scheduler after the call, and the returned array or
    the exception.  [currentItemPair = None] stands for [null].  The source
    sorts and swaps in place; its callers replace their array by the
    returned one, so the returned array is what is modelled. *)
Definition updateToDo (this : t) (h : Heap) (rnd : nat -> Q)
  (todo : list ItemRef) (currentItemPair : option ItemRef)
  : t * JS.result (list ItemRef) :=
  match clusters this, currentItemPair with
  | [], _ | _, None => (this, sortTodoList this todo)
  | _ :: _, Some cur =>
      let this1 :=
        if JS.gt (JS.Num (Z.of_nat (answers_length (h cur))))
                 (needToGoToNextRound this)
        then advanceRound this else this in
      match getClusterOfItem this1 cur with
      | None =>
          (* [undefined.allWordsSeenOnce()] *)
          (this1, JS.Throw JS.TypeError)
      | Some currentCluster =>
          let allSeenOnce := Cluster.allWordsSeenOnce h currentCluster in
          let returned := snd (Cluster.getTimesSeen h currentCluster) in
          let this2 :=
            set_clusters this1 (update_cluster_of h cur (clusters this1)) in
          let timesSeenThisRound :=
            JS.sub (JS.Num returned) (neededPreviousRounds this2) in
          let this3 :=
            if JS.strict_eq timesSeenThisRound (needThisRound this2)
            then set_clusters this2
                   (map (Cluster.increaseSortingID (length (clusters this2)))
                        (clusters this2))
            else this2 in
          let previousItem := JS.last_elem todo in
          let todo1 :=
            if allSeenOnce then SelectionAlgorithm.shuffleArray rnd todo
            else todo in
          (this3,
           todo2 <- sortTodoList this3 todo1 ;;
           match todo2 with
           | [] =>
               (* [todo[0]] and [previousItem] are both [undefined]:
                  [todo[0] = currentFirst] makes the array [[undefined]],
                  and [endOfSession] throws, reading the empty [rounds] or
                  [undefined.answers]. *)
               JS.Throw JS.TypeError
           | _ :: _ =>
               let todo3 := avoidRepeat previousItem todo2 in
               finished <- endOfSession this3 h todo3 ;;
               JS.Ok (if (finished : bool) then [] else todo3)
           end)
      end
  end.

(** A session: the calls made one after the other, each with the store,
    the draws, the array and the current item of its moment.  A call that
    throws leaves its state changes behind. *)
Definition call : Type :=
  (Heap * (nat -> Q) * list ItemRef * option ItemRef)%type.

Definition step (this : t) (c : call) : t :=
  let '(h, rnd, todo, cur) := c in
  fst (updateToDo this h rnd todo cur).

Definition run (this : t) (calls : list call) : t :=
  fold_left step calls this.

End ClusteringAlgorithm.

(* ================================================================== *)
(** ** The cluster-assignment strategies *)
(* ================================================================== *)

(** The centroid seeds are computed with binary64 arithmetic
    ([seed += 0.2], [seed * coordinates.length], [Math.floor]); they are
    modelled with the kernel's binary64 numbers. *)
Module Seeds.

(** The double nearest to [0.2]. *)
Definition d02 : float := 0x1.999999999999ap-3%float.

(** [Math.floor] on the sign, mantissa and exponent of a double, as an
    integer; [None] for [NaN] and the infinities. *)
Definition floorSF (x : spec_float) : option Z :=
  match x with
  | S754_zero _ => Some 0%Z
  | S754_finite s m e =>
      let sm := if s then Z.neg m else Z.pos m in
      Some (if (0 <=? e)%Z then Z.shiftl sm e else Z.shiftr sm (- e))%Z
  | S754_infinity _ | S754_nan => None
  end.

(** [Math.floor(f)]. *)
Definition floor (f : float) : option Z := floorSF (Prim2SF f).

(** A small non-negative integer (an array length, a cluster count) as a
    double. *)
Definition of_int (n : Z) : float := PrimFloat.of_uint63 (Uint63.of_Z n).

(** [Math.floor(seed * length)]. *)
Definition index_at (length : Z) (seed : float) : option Z :=
  floor (PrimFloat.mul seed (of_int length)).

(** [coordinates[i]] for the result [i] of [Math.floor]. *)
Definition at_index {A : Type} (coordinates : list A) (i : option Z)
  : option A :=
  match i with
  | Some (Zpos p) => nth_error coordinates (Pos.to_nat p)
  | Some Z0 => nth_error coordinates 0
  | Some (Zneg _) | None => None
  end.

(** [coordinates[Math.floor(seed * coordinates.length)]]. *)
Definition pick {A : Type} (coordinates : list A) (seed : float) : option A :=
  at_index coordinates (index_at (Z.of_nat (length coordinates)) seed).

(** [for (let seed = 0.2; seed <= limit; seed += 0.2) cents.push(..)].
    The loop runs on doubles, so the model takes fuel; [None] when the
    fuel does not suffice. *)
Fixpoint loop {A : Type} (fuel : nat) (coordinates : list A)
  (limit seed : float) : option (list (option A)) :=
  match fuel with
  | O => None
  | S fuel' =>
      if PrimFloat.leb seed limit
      then option_map (cons (pick coordinates seed))
                      (loop fuel' coordinates limit (PrimFloat.add seed d02))
      else Some []
  end.

(** Lines 241-245 (and 297-301). *)
Definition cents {A : Type} (fuel : nat) (clusterAmount : nat)
  (coordinates : list A) : option (list (option A)) :=
  loop fuel coordinates
       (PrimFloat.mul (of_int (Z.of_nat clusterAmount)) d02) d02.

End Seeds.

Module KMeansClusteringAlgorithm.

Definition clusterAmount : nat := 4.

(** The type of [kmeans(data, k, init_cent).indexes] of the package
    [kmeans-ts], which is not part of this repository. *)
Definition kmeans_t : Type :=
  list (Z * Z) -> nat -> list (option (Z * Z)) -> list nat.

Definition coordinates (h : Heap) (itemPairs : list ItemRef) : list (Z * Z) :=
  map (fun point : Z * Z => (fst point, snd point))
      (map (fun item => fromPosition (h item)) itemPairs).

(** [clustersIndexes.filter((value, index, self) =>
      self.indexOf(value) === index)]. *)
Definition distinct (clustersIndexes : list nat) : list nat :=
  JS.filteri
    (fun value index =>
       match JS.indexOf clustersIndexes value with
       | Some i => Nat.eqb i index
       | None => false
       end)
    0 clustersIndexes.

(** [clustersIndexes[itemPair.index] === clusterID]. *)
Definition has_label (h : Heap) (clustersIndexes : list nat)
  (clusterID : nat) (itemPair : ItemRef) : bool :=
  match nth_error clustersIndexes (index (h itemPair)) with
  | Some l => Nat.eqb l clusterID
  | None => false
  end.

(** Lines 253-263. *)
Definition clusters_of_indexes (h : Heap) (itemPairs : list ItemRef)
  (clustersIndexes : list nat) : list Cluster.t :=
  map (fun clusterID =>
         Cluster.new clusterID
           (filter (has_label h clustersIndexes clusterID) itemPairs))
      (distinct clustersIndexes).

(** [computeClusters]; [None] only when the fuel of the seed loop does
    not suffice. *)
Definition computeClusters (kmeans : kmeans_t) (fuel : nat) (h : Heap)
  (itemPairs : list ItemRef) : option (list Cluster.t) :=
  let coordinates := coordinates h itemPairs in
  match Seeds.cents fuel clusterAmount coordinates with
  | None => None
  | Some cents =>
      let clustersIndexes := kmeans coordinates clusterAmount cents in
      Some (clusters_of_indexes h itemPairs clustersIndexes)
  end.

(** [new KMeansClusteringAlgorithm(itemPairs)]. *)
Definition new (kmeans : kmeans_t) (fuel : nat) (h : Heap)
  (itemPairs : list ItemRef) : option ClusteringAlgorithm.t :=
  option_map (fun computed => ClusteringAlgorithm.new computed itemPairs)
             (computeClusters kmeans fuel h itemPairs).

End KMeansClusteringAlgorithm.

Module RandomClusteringAlgorithm.

Definition clusterAmount : nat := 4.

(** Lines 327-335: cluster [i] takes the next [neededClusterLengths[i]]
    shuffled items. *)
Fixpoint fill (i totalAddedToCluster : nat) (neededClusterLengths : list nat)
  (shuffledItemPairs : list ItemRef) : list Cluster.t :=
  match neededClusterLengths with
  | [] => []
  | n :: rest =>
      Cluster.new i
        (JS.slice shuffledItemPairs totalAddedToCluster
                  (totalAddedToCluster + n))
      :: fill (S i) (totalAddedToCluster + n) rest shuffledItemPairs
  end.

Definition computeClusters (kmeans : KMeansClusteringAlgorithm.kmeans_t)
  (fuel : nat) (h : Heap) (rnd : nat -> Q) (itemPairs : list ItemRef)
  : option (list Cluster.t) :=
  let coordinates := KMeansClusteringAlgorithm.coordinates h itemPairs in
  match Seeds.cents fuel clusterAmount coordinates with
  | None => None
  | Some cents =>
      let clustersIndexes := kmeans coordinates clusterAmount cents in
      let kmeansClusters :=
        KMeansClusteringAlgorithm.clusters_of_indexes
          h itemPairs clustersIndexes in
      let neededClusterLengths :=
        map (fun c => length (Cluster.itemPairs c)) kmeansClusters in
      let shuffledItemPairs :=
        SelectionAlgorithm.shuffleArray rnd itemPairs in
      Some (fill 0 0 neededClusterLengths shuffledItemPairs)
  end.

(** [new RandomClusteringAlgorithm(itemPairs)]. *)
Definition new (kmeans : KMeansClusteringAlgorithm.kmeans_t)
  (fuel : nat) (h : Heap) (rnd : nat -> Q) (itemPairs : list ItemRef)
  : option ClusteringAlgorithm.t :=
  option_map (fun computed => ClusteringAlgorithm.new computed itemPairs)
             (computeClusters kmeans fuel h rnd itemPairs).

End RandomClusteringAlgorithm.

(* ================================================================== *)
(** ** RandomAlgorithm: the plain repeat scheduler *)
(* ================================================================== *)

Module RandomAlgorithm.

Record t : Type := mk {
  todoLength : nat;
  iteration : Z;
  maxIterations : Z
}.

Definition new (todo : list ItemRef) : t := mk (length todo) 0 7.

(** [this.iteration % this.todoLength === 0]; the remainder by [0] is
    [NaN], which is not [0]. *)
Definition rem_is_zero (a : Z) (b : nat) : bool :=
  match b with
  | O => false
  | S _ => (Z.rem a (Z.of_nat b) =? 0)%Z
  end.

Definition updateToDo (this : t) (rnd : nat -> Q) (todo : list ItemRef)
  : t * list ItemRef :=
  let todo1 :=
    if (iteration this =? 0)%Z || rem_is_zero (iteration this) (todoLength this)
    then SelectionAlgorithm.shuffleArray rnd todo
    else todo in
  let this' := mk (todoLength this) (iteration this + 1) (maxIterations this) in
  let todo2 :=
    if (iteration this' - 1 =? maxIterations this' * Z.of_nat (todoLength this'))%Z
    then [] else todo1 in
  (this', todo2).

(** The arrays returned by successive calls, each with its own draws and
    its own argument. *)
Fixpoint run (this : t) (calls : list ((nat -> Q) * list ItemRef))
  : list (list ItemRef) :=
  match calls with
  | [] => []
  | (rnd, todo) :: calls' =>
      let '(this', out) := updateToDo this rnd todo in
      out :: run this' calls'
  end.

End RandomAlgorithm.

(* ================================================================== *)
(** ** The item selectors and the repeat rule *)
(* ================================================================== *)

(** [kmeansClusterItemSelect], [randomClusterItemSelect] and
    [alwaysItemRepeat] run on the game object ([this]).  Of the game only
    the fields they touch are modelled; [GameStatus] is declared outside the
    repository, so the type and its value [Finished] are parameters. *)
Module ItemSelect.

Section Game.
Variable GameStatus : Type.
Variable Finished : GameStatus.

(** The game, for the type [Element] of what its todo array holds: item
    pairs when a selector is called, as the array's type [ItemPair[]] says;
    [undefined] too ([None]) after a call that threw.  [todo] and
    [itemPairs] are two arrays, not one array under two names. *)
Record game (Element : Type) : Type := mk {
  selectionAlgorithm : option ClusteringAlgorithm.t;
  itemPairs : list ItemRef;
  todo : list Element;
  current : option ItemRef;
  status : GameStatus
}.

(** What a selector can throw: an exception of [updateToDo], or what the
    call of [kmeans] in the constructor of the scheduler throws. *)
Inductive exception : Type :=
| FromUpdateToDo (e : JS.exn)
| FromKmeans.

(** A call of a selector returns a number, or throws; either way it leaves
    a game behind. *)
Inductive outcome : Type :=
| Returns (this' : game ItemRef) (result : nat)
| Throws (this' : game (option ItemRef)) (e : exception).

(** [new ...ClusteringAlgorithm(itemPairs)]: the scheduler, or no scheduler
    when [kmeans] threw. *)
Inductive constructed : Type :=
| Built (algorithm : ClusteringAlgorithm.t)
| Failed.

(** The array [updateToDo] was called on, as a call that throws leaves it.
    [sort] and the swap of lines 154-163 write to the array they are given,
    which is the caller's unless [shuffleArray] has put a new array in its
    place (line 148).  A comparator that throws ends [sort] before anything
    is written back to the array.  On the empty array, [todo[0]] and
    [previousItem] are both [undefined], and [todo[0] = currentFirst] makes
    the array [[undefined]] before [endOfSession] throws.  [algorithm'] is
    the scheduler after the call: [sortTodoList] reads the priorities after
    the rotation. *)
Definition todo_at_throw (algorithm algorithm' : ClusteringAlgorithm.t)
  (h : Heap) (todo : list ItemRef) (currentItemPair : option ItemRef)
  : list (option ItemRef) :=
  match ClusteringAlgorithm.clusters algorithm, currentItemPair with
  | [], _ | _, None => map Some todo
  | _ :: _, Some cur =>
      match ClusteringAlgorithm.getClusterOfItem algorithm cur with
      | None => map Some todo
      | Some currentCluster =>
          if Cluster.allWordsSeenOnce h currentCluster
          then map Some todo
          else
            match ClusteringAlgorithm.sortTodoList algorithm' todo with
            | JS.Throw _ => map Some todo
            | JS.Ok [] => [None]
            | JS.Ok (first :: rest) =>
                map Some
                    (ClusteringAlgorithm.avoidRepeat (JS.last_elem todo)
                                                     (first :: rest))
            end
      end
  end.

(** Lines 17-24 of both selectors, for the scheduler [algorithm] of the
    game.  The assignment to [this.todo] takes place when [updateToDo]
    returns; the scheduler keeps the changes made before a throw. *)
Definition update (h : Heap) (rnd : nat -> Q) (this : game ItemRef)
  (algorithm : ClusteringAlgorithm.t) : outcome :=
  let '(algorithm', returned) :=
    ClusteringAlgorithm.updateToDo algorithm h rnd (todo this)
                                   (current this) in
  match returned with
  | JS.Throw e =>
      Throws (mk (Some algorithm') (itemPairs this)
                 (todo_at_throw algorithm algorithm' h (todo this)
                                (current this))
                 (current this) (status this))
             (FromUpdateToDo e)
  | JS.Ok [] =>
      Returns (mk (Some algorithm') (itemPairs this) [] (current this)
                  Finished)
              0%nat
  | JS.Ok (first :: rest) =>
      Returns (mk (Some algorithm') (itemPairs this) (first :: rest)
                  (current this) (status this))
              (index (h first))
  end.

(** The body the two selectors share, for the constructor [construct] of
    the selector's scheduler class.  [None] only when the fuel of the seed
    loop does not suffice.  When the constructor throws, nothing has been
    assigned. *)
Definition select (construct : list ItemRef -> option constructed)
  (h : Heap) (rnd : nat -> Q) (this : game ItemRef) : option outcome :=
  match selectionAlgorithm this with
  | Some algorithm => Some (update h rnd this algorithm)
  | None =>
      match construct (itemPairs this) with
      | None => None
      | Some Failed =>
          Some (Throws (mk None (itemPairs this) (map Some (todo this))
                           (current this) (status this))
                       FromKmeans)
      | Some (Built algorithm) => Some (update h rnd this algorithm)
      end
  end.

(** A constructor of a scheduler class: [throws] tells on which arguments
    the call of [kmeans] throws instead of returning; [new] is the
    scheduler constructed when it returns. *)
Definition construct
  (throws : list (Z * Z) -> nat -> list (option (Z * Z)) -> bool)
  (fuel : nat) (h : Heap)
  (new : list ItemRef -> option ClusteringAlgorithm.t)
  (itemPairs : list ItemRef) : option constructed :=
  let coordinates := KMeansClusteringAlgorithm.coordinates h itemPairs in
  match Seeds.cents fuel KMeansClusteringAlgorithm.clusterAmount coordinates
  with
  | None => None
  | Some cents =>
      if throws coordinates KMeansClusteringAlgorithm.clusterAmount cents
      then Some Failed
      else option_map Built (new itemPairs)
  end.

Definition kmeansClusterItemSelect
  (kmeans : KMeansClusteringAlgorithm.kmeans_t)
  (throws : list (Z * Z) -> nat -> list (option (Z * Z)) -> bool)
  (fuel : nat) (h : Heap) (rnd : nat -> Q) (this : game ItemRef)
  : option outcome :=
  select (construct throws fuel h (KMeansClusteringAlgorithm.new kmeans fuel h))
         h rnd this.

(** [shuffle] are the draws of the constructor's shuffle, [rnd] those of
    [updateToDo]. *)
Definition randomClusterItemSelect
  (kmeans : KMeansClusteringAlgorithm.kmeans_t)
  (throws : list (Z * Z) -> nat -> list (option (Z * Z)) -> bool)
  (fuel : nat) (h : Heap) (shuffle rnd : nat -> Q) (this : game ItemRef)
  : option outcome :=
  select (construct throws fuel h
                    (RandomClusteringAlgorithm.new kmeans fuel h shuffle))
         h rnd this.

(** [alwaysItemRepeat]: its three arguments are not used. *)
Definition alwaysItemRepeat {Element : Type} (this : game Element) : bool :=
  negb (Nat.eqb (length (todo this)) 0).

End Game.

End ItemSelect.

(* ================================================================== *)
(** ** Vocabulary of the properties *)
(* ================================================================== *)

(** The sum of the round schedule. *)
Definition sum_rounds (rounds : list Z) : Z := fold_right Z.add 0%Z rounds.

(** The item is a member of one of the clusters. *)
Definition in_some_cluster (cs : list Cluster.t) (item : ItemRef) : bool :=
  existsb (fun c => includes (Cluster.itemPairs c) item) cs.

(** The round bookkeeping of a scheduler is in order: the rounds are not
    negative, the two cumulative counters are numbers, and [needThisRound]
    is the schedule's entry for the current round. *)
Definition bookkeeping_ok (this : ClusteringAlgorithm.t) : Prop :=
  Forall (fun r => (0 <= r)%Z) (ClusteringAlgorithm.rounds this)
  /\ (exists a, ClusteringAlgorithm.neededPreviousRounds this = JS.Num a)
  /\ (exists b, ClusteringAlgorithm.needToGoToNextRound this = JS.Num b)
  /\ ClusteringAlgorithm.needThisRound this
     = JS.get (ClusteringAlgorithm.rounds this)
              (ClusteringAlgorithm.roundID this).

(** The bookkeeping part of the state. *)
Definition progress (this : ClusteringAlgorithm.t)
  : list Z * nat * JS.jsnum * JS.jsnum * JS.jsnum :=
  (ClusteringAlgorithm.rounds this, ClusteringAlgorithm.roundID this,
   ClusteringAlgorithm.neededPreviousRounds this,
   ClusteringAlgorithm.needThisRound this,
   ClusteringAlgorithm.needToGoToNextRound this).

(** The four progress counters of [this'] are at least those of [this]. *)
Definition counters_nondecreasing (this this' : ClusteringAlgorithm.t) : Prop :=
  (ClusteringAlgorithm.roundID this <= ClusteringAlgorithm.roundID this')%nat
  /\ JS.le (ClusteringAlgorithm.neededPreviousRounds this)
           (ClusteringAlgorithm.neededPreviousRounds this') = true
  /\ JS.le (ClusteringAlgorithm.needThisRound this)
           (ClusteringAlgorithm.needThisRound this') = true
  /\ JS.le (ClusteringAlgorithm.needToGoToNextRound this)
           (ClusteringAlgorithm.needToGoToNextRound this') = true.

(** A store in which every item pair has [n] answers, index [0] and
    position [(0, 0)]. *)
Definition answered (n : nat) : Heap := fun _ => mkItemPair 0 n (0, 0)%Z.

(** The draws [0, 1/2, 0, 1/2, ...]. *)
Definition alternating : nat -> Q := fun k => if Nat.even k then 0%Q else (1 # 2)%Q.

(** A session on the single item [0], in one cluster: the first call of the
    session, then one call after each of the first five answers. *)
Definition single_item_scheduler : ClusteringAlgorithm.t :=
  ClusteringAlgorithm.new [Cluster.new 0 [0%nat]] [0%nat].

Definition five_answers : list ClusteringAlgorithm.call :=
  (answered 0, alternating, [0%nat], None)
  :: map (fun n => (answered n, alternating, [0%nat], Some 0%nat))
         [1; 2; 3; 4; 5]%nat.

(** Twenty-two calls of the plain scheduler on the array [[0; 1; 2]]. *)
Definition three_items : list ItemRef := [0; 1; 2]%nat.

Definition twenty_two_calls : list ((nat -> Q) * list ItemRef) :=
  repeat (alternating, three_items) 22.

(** A scheduler over the five items [0..4], in clusters of two and three
    items, as the constructor leaves it. *)
Definition five_items : list ItemRef := [0; 1; 2; 3; 4]%nat.

Definition two_cluster_scheduler : ClusteringAlgorithm.t :=
  ClusteringAlgorithm.new
    [Cluster.new 0 [0; 1]%nat; Cluster.new 1 [2; 3; 4]%nat] five_items.

(** The same scheduler in the last round, when the first cluster has been
    seen six times and the second seven times. *)
Definition last_round_scheduler : ClusteringAlgorithm.t :=
  ClusteringAlgorithm.mk
    [Cluster.mk 0 0 6 [0; 1]%nat; Cluster.mk 1 1 7 [2; 3; 4]%nat]
    five_items [4; 2; 1]%Z 2 (JS.Num 6) (JS.Num 1) (JS.Num 7).

(** A store in which item pair [i] has index [i], and one answer when it is
    [item], none otherwise. *)
Definition first_answer_of (item : ItemRef) : Heap :=
  fun i => mkItemPair i (if Nat.eqb i item then 1 else 0) (0, 0)%Z.

(** What the schedulers rely on from [kmeans]: one label per point, each
    below the number of clusters asked for. *)
Definition kmeans_contract (kmeans : KMeansClusteringAlgorithm.kmeans_t) : Prop :=
  forall data cents,
    let indexes := kmeans data KMeansClusteringAlgorithm.clusterAmount cents in
    length indexes = length data
    /\ Forall (fun l => (l < KMeansClusteringAlgorithm.clusterAmount)%nat) indexes.

(** Every cluster's [sortingID] is in [[0, numClusters)]. *)
Definition sortingID_in_domain (cs : list Cluster.t) : bool :=
  forallb (fun c => (0 <=? Cluster.sortingID c)%Z
                    && (Cluster.sortingID c <? Z.of_nat (length cs))%Z) cs.

(** The ids of the clusters are exactly [0 .. K-1]. *)
Definition ids_are_0_to (K : nat) (cs : list Cluster.t) : Prop :=
  Permutation (map Cluster.ID cs) (seq 0 K).

(** A clustering primitive for the examples: one assignment pass of
    k-means, every point labelled with the nearest of the given centroids
    (the later one on a tie, [undefined] centroids skipped). *)
Definition dist2 (p q : Z * Z) : Z :=
  ((fst p - fst q) * (fst p - fst q) + (snd p - snd q) * (snd p - snd q))%Z.

Fixpoint nearest (p : Z * Z) (cents : list (option (Z * Z))) (j best : nat)
  (min : option Z) : nat :=
  match cents with
  | [] => best
  | None :: cents' => nearest p cents' (S j) best min
  | Some q :: cents' =>
      let d := dist2 p q in
      if match min with Some m => (d <=? m)%Z | None => true end
      then nearest p cents' (S j) j (Some d)
      else nearest p cents' (S j) best min
  end.

Definition nearest_centroid : KMeansClusteringAlgorithm.kmeans_t :=
  fun data k cents => map (fun p => nearest p (firstn k cents) 0 0 None) data.

(** A store in which item pair [i] has index [i], no answers, and position
    [(10 i, 0)]. *)
Definition on_a_line : Heap :=
  fun i => mkItemPair i 0 (10 * Z.of_nat i, 0)%Z.

(** The doubles [0.2], [0.2 + 0.2], [0.2 + 0.2 + 0.2] and
    [0.2 + 0.2 + 0.2 + 0.2], that is [0.2], [0.4], [0.6000000000000001] and
    [0.8]. *)
Definition seed_values : list float :=
  [0x1.999999999999ap-3; 0x1.999999999999ap-2;
   0x1.3333333333334p-1; 0x1.999999999999ap-1]%float.

(** The index [floor (k * length / 5)], as an exact integer. *)
Definition fifths (length : Z) (k : Z) : Z := (k * length / 5)%Z.

(** The floored products agree with the exact fifths for the length [n]. *)
Definition seeds_exact_at (n : Z) : bool :=
  forallb (fun ks : Z * float =>
             match Seeds.index_at n (snd ks) with
             | Some i => (i =? fifths n (fst ks))%Z
             | None => false
             end)
          (combine [1; 2; 3; 4]%Z seed_values).

(** The priority the comparator of [sortTodoList] reads for an item. *)
Definition priority (this : ClusteringAlgorithm.t) (item : ItemRef) : Z :=
  ClusteringAlgorithm.sortingID_of this item.

(** The items' [index] fields are their positions in the list. *)
Definition indexes_aligned (h : Heap) (itemPairs : list ItemRef) : Prop :=
  map (fun item => index (h item)) itemPairs = seq 0 (length itemPairs).

(** A game before its first call: no scheduler yet, no current item, the
    todo list [todo] over the five items on a line; the status is a
    boolean, [true] for [Finished]. *)
Definition fresh_game (todo : list ItemRef) : ItemSelect.game bool ItemRef :=
  ItemSelect.mk None five_items todo None false.

(** A game in its session, with the scheduler of two clusters stored and
    item [current] shown last. *)
Definition running_game (todo : list ItemRef) (current : ItemRef)
  : ItemSelect.game bool ItemRef :=
  ItemSelect.mk (Some two_cluster_scheduler) five_items todo (Some current)
                false.

(** A package that throws when it is given no points, and returns
    otherwise. *)
Definition throws_on_no_data (data : list (Z * Z)) (k : nat)
  (cents : list (option (Z * Z))) : bool :=
  Nat.eqb (length data) 0.

(** What a selector leaves behind, seen from its caller.  The item list
    and the current item are never touched.  When the selector returns, a
    scheduler is in place, and the todo list is empty, the game [Finished]
    and the result 0, or the todo list is a rearrangement of the old one,
    the status as before and the result the [index] of its first item.
    When [kmeans] threw, nothing has changed.  When [updateToDo] threw, a
    scheduler is in place, the status is as before, and the todo list holds
    the items it held, in some order, but for the empty list, which can
    have become [[undefined]].  [alwaysItemRepeat] answers by the length of
    the todo list it finds. *)
Definition selector_outcome {GameStatus : Type} (Finished : GameStatus)
  (h : Heap) (this : ItemSelect.game GameStatus ItemRef)
  (o : ItemSelect.outcome GameStatus) : Prop :=
  match o with
  | ItemSelect.Returns this' n =>
      ItemSelect.itemPairs this' = ItemSelect.itemPairs this
      /\ ItemSelect.current this' = ItemSelect.current this
      /\ ItemSelect.selectionAlgorithm this' <> None
      /\ match ItemSelect.todo this' with
         | [] =>
             ItemSelect.status this' = Finished
             /\ n = 0%nat
             /\ ItemSelect.alwaysItemRepeat this' = false
         | first :: _ =>
             Permutation (ItemSelect.todo this') (ItemSelect.todo this)
             /\ ItemSelect.status this' = ItemSelect.status this
             /\ n = index (h first)
             /\ ItemSelect.alwaysItemRepeat this' = true
         end
  | ItemSelect.Throws this' e =>
      ItemSelect.itemPairs this' = ItemSelect.itemPairs this
      /\ ItemSelect.current this' = ItemSelect.current this
      /\ ItemSelect.status this' = ItemSelect.status this
      /\ match e with
         | ItemSelect.FromKmeans =>
             ItemSelect.selectionAlgorithm this = None
             /\ ItemSelect.selectionAlgorithm this' = None
             /\ ItemSelect.todo this' = map Some (ItemSelect.todo this)
         | ItemSelect.FromUpdateToDo _ =>
             ItemSelect.selectionAlgorithm this' <> None
             /\ ((exists q : list ItemRef,
                    ItemSelect.todo this' = map Some q
                    /\ Permutation q (ItemSelect.todo this))
                 \/ (ItemSelect.todo this = []
                     /\ ItemSelect.todo this' = [None]
                     /\ ItemSelect.alwaysItemRepeat this' = true))
         end
  end.

(** The first call of a session went through: the scheduler [algorithm]
    has been constructed and stored, and the new todo list is the old one
    in ascending order of priority, its first item being the one whose
    [index] is returned. *)
Definition first_call_outcome {GameStatus : Type} (h : Heap)
  (this : ItemSelect.game GameStatus ItemRef)
  (algorithm : option ClusteringAlgorithm.t)
  (outcome : option (ItemSelect.outcome GameStatus)) : Prop :=
  exists alg this' first rest,
    algorithm = Some alg
    /\ outcome = Some (ItemSelect.Returns this' (index (h first)))
    /\ ItemSelect.selectionAlgorithm this' = Some alg
    /\ ItemSelect.todo this' = first :: rest
    /\ Permutation (first :: rest) (ItemSelect.todo this)
    /\ StronglySorted (fun a b => (priority alg a <= priority alg b)%Z)
                      (first :: rest)
    /\ ItemSelect.status this' = ItemSelect.status this.

(** The scheduler has run past its schedule: [roundID] is no index of
    [rounds] any more, [needThisRound] is [undefined] and
    [needToGoToNextRound] is [NaN]. *)
Definition overrun (this : ClusteringAlgorithm.t) : Prop :=
  (length (ClusteringAlgorithm.rounds this)
   <= ClusteringAlgorithm.roundID this)%nat
  /\ ClusteringAlgorithm.needThisRound this = JS.Undefined
  /\ ClusteringAlgorithm.needToGoToNextRound this = JS.NaN.

(** A store in which every item pair has [n] answers but [item], which
    has one more. *)
Definition one_ahead (n : nat) (item : ItemRef) : Heap :=
  fun i => mkItemPair i (if Nat.eqb i item then S n else n) (0, 0)%Z.

(* ================================================================== *)
(** ** Facts about the prelude *)
(* ================================================================== *)

Section SortFacts.
Context {A : Type} (cmp : A -> A -> comparison).

Lemma insert_perm (x : A) (l : list A) :
  Permutation (JS.insert cmp x l) (x :: l).
Proof.
  induction l as [|y l IH]; simpl; [reflexivity|].
  destruct (cmp x y); try reflexivity.
  rewrite IH. apply perm_swap.
Qed.

Lemma sort_perm (l : list A) : Permutation (JS.sort cmp l) l.
Proof.
  induction l as [|x l IH]; simpl; [reflexivity|].
  rewrite insert_perm. now constructor.
Qed.

Lemma sort_length (l : list A) : length (JS.sort cmp l) = length l.
Proof. apply Permutation_length, sort_perm. Qed.
End SortFacts.

Lemma tag_fst (rnd : nat -> Q) (todo : list ItemRef) (k : nat) :
  map fst (SelectionAlgorithm.tag rnd k todo) = todo.
Proof.
  revert k; induction todo as [|v todo IH]; intros k; simpl; [reflexivity|].
  now rewrite IH.
Qed.

Lemma shuffleArray_perm (rnd : nat -> Q) (todo : list ItemRef) :
  Permutation (SelectionAlgorithm.shuffleArray rnd todo) todo.
Proof.
  unfold SelectionAlgorithm.shuffleArray.
  rewrite <- (tag_fst rnd todo 0) at 2.
  apply Permutation_map, sort_perm.
Qed.

(** With the draws [0, 1/2, 0] the stable sort keeps the first and the
    third item, in this order, before the second. *)
Example shuffleArray_example :
  SelectionAlgorithm.shuffleArray alternating [7; 8; 9]%nat = [7; 9; 8]%nat.
Proof. vm_compute. reflexivity. Qed.

(** C10. Whatever the random draws are, [shuffleArray] returns a permutation
    of its input: the output has the length of the input and every item
    occurs in it exactly as often as in the input. *)
Theorem shuffleArray_permutation (rnd : nat -> Q) (todo : list ItemRef) :
  Permutation todo (SelectionAlgorithm.shuffleArray rnd todo)
  /\ length (SelectionAlgorithm.shuffleArray rnd todo) = length todo
  /\ forall item : ItemRef,
       count_occ Nat.eq_dec (SelectionAlgorithm.shuffleArray rnd todo) item
       = count_occ Nat.eq_dec todo item.
Proof.
  pose proof (shuffleArray_perm rnd todo) as P.
  split; [now symmetry|].
  split; [now apply Permutation_length|].
  intros item. now apply Permutation_count_occ.
Qed.

(* ================================================================== *)
(** ** Cluster: the lockstep check *)
(* ================================================================== *)

Section FilterFacts.
Context {A : Type} (p : A -> bool).

Lemma filter_length_le (l : list A) : (length (filter p l) <= length l)%nat.
Proof.
  induction l as [|x l IH]; simpl; [lia|].
  destruct (p x); simpl; lia.
Qed.

(** Counting the elements that pass a test and comparing with the length,
    as the source does, decides whether all of them pass. *)
Lemma filter_all (l : list A) :
  Nat.eqb (length (filter p l)) (length l) = forallb p l.
Proof.
  induction l as [|x l IH]; simpl; [reflexivity|].
  destruct (p x); simpl; [exact IH|].
  apply Nat.eqb_neq. pose proof (filter_length_le l). lia.
Qed.
End FilterFacts.

Lemma allWordsSeenOnce_forallb (h : Heap) (c : Cluster.t) :
  Cluster.allWordsSeenOnce h c
  = forallb (fun item =>
               (Z.of_nat (answers_length (h item)) - Cluster.timesSeen c =? 1)%Z)
            (Cluster.itemPairs c).
Proof.
  unfold Cluster.allWordsSeenOnce.
  rewrite <- (length_map (fun item => Z.of_nat (answers_length (h item)))
                         (Cluster.itemPairs c)).
  rewrite filter_all.
  induction (Cluster.itemPairs c) as [|item l IH]; simpl; [reflexivity|].
  now rewrite IH.
Qed.

(** C2. [allWordsSeenOnce] is true exactly when every member's number of
    answers minus [timesSeen] is 1; [getTimesSeen] adds 1 to [timesSeen] when
    that holds and changes nothing otherwise, and returns the resulting
    [timesSeen]. *)
Theorem getTimesSeen_lockstep (h : Heap) (c : Cluster.t) :
  (Cluster.allWordsSeenOnce h c = true <->
   forall item, In item (Cluster.itemPairs c) ->
     (Z.of_nat (answers_length (h item)) - Cluster.timesSeen c = 1)%Z)
  /\ (Cluster.allWordsSeenOnce h c = true ->
      fst (Cluster.getTimesSeen h c)
      = Cluster.mk (Cluster.ID c) (Cluster.sortingID c)
                   (Cluster.timesSeen c + 1) (Cluster.itemPairs c))
  /\ (Cluster.allWordsSeenOnce h c = false ->
      fst (Cluster.getTimesSeen h c) = c)
  /\ snd (Cluster.getTimesSeen h c)
     = Cluster.timesSeen (fst (Cluster.getTimesSeen h c)).
Proof.
  split; [|split; [|split]].
  - rewrite allWordsSeenOnce_forallb, forallb_forall.
    split; intros H item Hin; specialize (H item Hin).
    + now apply Z.eqb_eq.
    + now apply Z.eqb_eq.
  - intros H. unfold Cluster.getTimesSeen. now rewrite H.
  - intros H. unfold Cluster.getTimesSeen. now rewrite H.
  - reflexivity.
Qed.

(* ================================================================== *)
(** ** ClusteringAlgorithm: one steady-state call *)
(* ================================================================== *)

Import ClusteringAlgorithm.

Lemma sortTodoList_perm (this : t) (todo q : list ItemRef) :
  sortTodoList this todo = JS.Ok q -> Permutation q todo.
Proof.
  unfold sortTodoList.
  destruct (length todo <? 2)%nat.
  - intros [= <-]. reflexivity.
  - destruct (forallb _ todo); [|discriminate].
    intros [= <-]. apply sort_perm.
Qed.

Lemma avoidRepeat_perm (prev : option ItemRef) (todo : list ItemRef) :
  Permutation (avoidRepeat prev todo) todo.
Proof.
  destruct todo as [|a [|b rest]]; simpl; [reflexivity| |].
  - destruct prev as [p|]; [destruct (same_item a p)|]; reflexivity.
  - destruct prev as [p|]; [destruct (same_item a p)|];
      try reflexivity. apply perm_swap.
Qed.

(** What a steady-state call that returns has done: the returned array is
    the sorted, possibly shuffled and possibly swapped input, or the empty
    array when [endOfSession] says so. *)
Lemma updateToDo_steady_inv (this : t) (h : Heap) (rnd : nat -> Q)
  (todo : list ItemRef) (cur : ItemRef) (this' : t) (q' : list ItemRef) :
  clusters this <> [] ->
  updateToDo this h rnd todo (Some cur) = (this', JS.Ok q') ->
  exists (todo2 : list ItemRef) (finished : bool),
    Permutation todo2 todo
    /\ todo2 <> []
    /\ endOfSession this' h (avoidRepeat (JS.last_elem todo) todo2)
       = JS.Ok finished
    /\ q' = if finished then []
            else avoidRepeat (JS.last_elem todo) todo2.
Proof.
  intros Hcl. unfold updateToDo.
  destruct (clusters this) as [|c0 cs] eqn:Ecl; [contradiction|].
  set (this1 := if JS.gt _ _ then advanceRound this else this).
  destruct (getClusterOfItem this1 cur) as [cc|]; [|discriminate].
  set (this3 := if JS.strict_eq _ _ then _ else _).
  set (todo1 := if Cluster.allWordsSeenOnce h cc then _ else todo).
  intros [= <- Hres].
  destruct (sortTodoList this3 todo1) as [todo2|] eqn:Esort; [|discriminate].
  simpl in Hres.
  destruct todo2 as [|a rest]; [discriminate|].
  destruct (endOfSession this3 h (avoidRepeat (JS.last_elem todo) (a :: rest)))
    as [finished|] eqn:Eend; [|discriminate].
  simpl in Hres. injection Hres as <-.
  exists (a :: rest), finished.
  split; [|split; [discriminate|split; [exact Eend|reflexivity]]].
  apply sortTodoList_perm in Esort. rewrite Esort.
  unfold todo1. destruct (Cluster.allWordsSeenOnce h cc); [|reflexivity].
  apply shuffleArray_perm.
Qed.

(** The first call of a session only sorts the array by cluster, keeping
    the order within a cluster. *)
Example updateToDo_first_call :
  updateToDo two_cluster_scheduler (answered 0) alternating
             [4; 0; 3; 1; 2]%nat None
  = (two_cluster_scheduler, JS.Ok [0; 1; 4; 3; 2]%nat).
Proof. vm_compute. reflexivity. Qed.

Lemma reduce_sum (r : Z) (rs : list Z) :
  fold_left Z.add rs r = sum_rounds (r :: rs).
Proof.
  unfold sum_rounds. revert r.
  induction rs as [|x rs IH]; intros r; simpl; [lia|].
  rewrite IH. simpl. lia.
Qed.

Lemma endOfSession_true (this : t) (h : Heap) (todo : list ItemRef) (b : bool) :
  endOfSession this h todo = JS.Ok b ->
  (b = true <->
   (forall i, In i todo ->
      Z.of_nat (answers_length (h i)) = sum_rounds (rounds this))
   /\ (roundID this + 1)%nat = length (rounds this)).
Proof.
  unfold endOfSession.
  destruct (rounds this) as [|r rs] eqn:Er; [discriminate|].
  intros [= <-]. rewrite reduce_sum.
  rewrite <- (length_map (fun i => Z.of_nat (answers_length (h i))) todo).
  rewrite filter_all, andb_true_iff, Nat.eqb_eq, forallb_forall.
  split; intros [H1 H2]; (split; [|exact H2]).
  - intros i Hi. apply Z.eqb_eq, H1, in_map_iff. now exists i.
  - intros a Ha. apply in_map_iff in Ha as [i [<- Hi]].
    apply Z.eqb_eq. now apply H1.
Qed.

Lemma advanceRound_rounds (this : t) : rounds (advanceRound this) = rounds this.
Proof. reflexivity. Qed.

Lemma updateToDo_rounds (this : t) (h : Heap) (rnd : nat -> Q)
  (todo : list ItemRef) (cur : option ItemRef) :
  rounds (fst (updateToDo this h rnd todo cur)) = rounds this.
Proof.
  unfold updateToDo.
  destruct (clusters this) as [|c0 cs], cur as [cur|]; try reflexivity.
  set (this1 := if JS.gt _ _ then advanceRound this else this).
  assert (E1 : rounds this1 = rounds this)
    by (unfold this1; now destruct (JS.gt _ _)).
  destruct (getClusterOfItem this1 cur) as [cc|]; [|exact E1].
  simpl. now destruct (JS.strict_eq _ _).
Qed.

(** C1. A steady-state call that returns, returns the empty array exactly
    when every item of the array has as many answers as the rounds sum up to
    and the scheduler's [roundID] (as the call leaves it) is the index of
    the last round; in every other case the returned array is not empty. *)
Theorem updateToDo_empty_iff_finished (this : t) (h : Heap) (rnd : nat -> Q)
  (todo : list ItemRef) (cur : ItemRef) (this' : t) (q' : list ItemRef) :
  clusters this <> [] ->
  updateToDo this h rnd todo (Some cur) = (this', JS.Ok q') ->
  (q' = [] <->
   (forall i, In i todo ->
      Z.of_nat (answers_length (h i)) = sum_rounds (rounds this))
   /\ (roundID this' + 1)%nat = length (rounds this)).
Proof.
  intros Hcl Hcall.
  pose proof (updateToDo_rounds this h rnd todo (Some cur)) as Hr.
  rewrite Hcall in Hr. simpl in Hr.
  destruct (updateToDo_steady_inv _ _ _ _ _ Hcl Hcall)
    as (todo2 & finished & Hperm & Hne & Hend & ->).
  apply endOfSession_true in Hend. rewrite Hr in Hend.
  assert (Hq : (if finished then [] else avoidRepeat (JS.last_elem todo) todo2)
               = [] <-> finished = true).
  { destruct finished; split; try reflexivity; try discriminate.
    intros E. exfalso. apply Hne.
    apply Permutation_nil. rewrite <- E. apply avoidRepeat_perm. }
  rewrite Hq, Hend.
  assert (Hin : forall i, In i (avoidRepeat (JS.last_elem todo) todo2)
                          <-> In i todo).
  { intros i. split; apply Permutation_in.
    - now rewrite avoidRepeat_perm.
    - now rewrite avoidRepeat_perm, Hperm. }
  split; intros [H1 H2]; (split; [|exact H2]); intros i Hi; apply H1, Hin, Hi.
Qed.

(** The call that ends a session: every item has seven answers and the
    scheduler is in round 2. *)
Lemma updateToDo_empty_iff_finished_witness :
  exists this' q',
    updateToDo last_round_scheduler (answered 7) alternating five_items
               (Some 1%nat)
    = (this', JS.Ok q')
    /\ q' = []
    /\ (q' = [] <->
        (forall i, In i five_items ->
           Z.of_nat (answers_length (answered 7 i))
           = sum_rounds (rounds last_round_scheduler))
        /\ (roundID this' + 1)%nat = length (rounds last_round_scheduler)).
Proof.
  eexists. eexists.
  split; [vm_compute; reflexivity|].
  split; [reflexivity|].
  apply (@updateToDo_empty_iff_finished
           last_round_scheduler (answered 7) alternating five_items 1%nat).
  - discriminate.
  - vm_compute. reflexivity.
Defined.

(** *** Membership is not affected by the bookkeeping *)

Lemma getClusterOfItem_none (this : t) (item : ItemRef) :
  getClusterOfItem this item = None
  <-> in_some_cluster (clusters this) item = false.
Proof.
  unfold getClusterOfItem, in_some_cluster.
  induction (clusters this) as [|c cs IH]; simpl; [tauto|].
  destruct (includes (Cluster.itemPairs c) item); simpl; [|exact IH].
  split; discriminate.
Qed.

Lemma getClusterOfItem_some (this : t) (item : ItemRef) :
  in_some_cluster (clusters this) item = true ->
  exists c, getClusterOfItem this item = Some c.
Proof.
  intros H. destruct (getClusterOfItem this item) as [c|] eqn:E; [now exists c|].
  apply getClusterOfItem_none in E. congruence.
Qed.

Lemma in_some_cluster_update (h : Heap) (cur item : ItemRef)
  (cs : list Cluster.t) :
  in_some_cluster (update_cluster_of h cur cs) item = in_some_cluster cs item.
Proof.
  unfold in_some_cluster.
  induction cs as [|c cs IH]; simpl; [reflexivity|].
  destruct (includes (Cluster.itemPairs c) cur); simpl.
  - unfold Cluster.getTimesSeen.
    now destruct (Cluster.allWordsSeenOnce h c).
  - now rewrite IH.
Qed.

Lemma in_some_cluster_rotate (n : nat) (item : ItemRef) (cs : list Cluster.t) :
  in_some_cluster (map (Cluster.increaseSortingID n) cs) item
  = in_some_cluster cs item.
Proof.
  unfold in_some_cluster.
  induction cs as [|c cs IH]; simpl; [reflexivity|]. now rewrite IH.
Qed.

Lemma last_elem_some {A : Type} (l : list A) :
  l <> [] -> exists p, JS.last_elem l = Some p /\ In p l.
Proof.
  intros Hne. unfold JS.last_elem.
  destruct (nth_error l (length l - 1)) as [p|] eqn:E.
  - exists p. split; [reflexivity|]. eapply nth_error_In, E.
  - apply nth_error_None in E. destruct l; [contradiction|simpl in E; lia].
Qed.

(** X3. A steady-state call returns an array (it does not throw) as soon as
    the array is not empty, the schedule is not empty, and the current item
    and the items of the array are members of clusters. *)
Lemma updateToDo_returns (this : t) (h : Heap) (rnd : nat -> Q)
  (todo : list ItemRef) (cur : ItemRef) :
  clusters this <> [] ->
  rounds this <> [] ->
  todo <> [] ->
  in_some_cluster (clusters this) cur = true ->
  forallb (in_some_cluster (clusters this)) todo = true ->
  exists q', snd (updateToDo this h rnd todo (Some cur)) = JS.Ok q'.
Proof.
  intros Hcl Hr Hne Hcur Hall. unfold updateToDo.
  destruct (clusters this) as [|c0 cs] eqn:Ecl; [contradiction|].
  rewrite <- Ecl in *.
  set (this1 := if JS.gt _ _ then advanceRound this else this).
  assert (E1 : clusters this1 = clusters this /\ rounds this1 = rounds this)
    by (unfold this1; now destruct (JS.gt _ _)).
  destruct E1 as [E1 R1].
  destruct (getClusterOfItem_some this1 cur) as [cc Ecc];
    [now rewrite E1|].
  rewrite Ecc.
  set (this3 := if JS.strict_eq _ _ then _ else _).
  set (todo1 := if Cluster.allWordsSeenOnce h cc then _ else todo).
  assert (E3 : forall i, in_some_cluster (clusters this3) i
                         = in_some_cluster (clusters this) i).
  { intros i. unfold this3. destruct (JS.strict_eq _ _); simpl;
      rewrite ?in_some_cluster_rotate, in_some_cluster_update, E1; reflexivity. }
  assert (R3 : rounds this3 = rounds this)
    by (unfold this3; destruct (JS.strict_eq _ _); exact R1).
  assert (P1 : Permutation todo1 todo).
  { unfold todo1. destruct (Cluster.allWordsSeenOnce h cc); [|reflexivity].
    apply shuffleArray_perm. }
  assert (S : exists todo2, sortTodoList this3 todo1 = JS.Ok todo2).
  { unfold sortTodoList. destruct (length todo1 <? 2)%nat; [eauto|].
    replace (forallb _ todo1) with true; [eauto|].
    symmetry. apply forallb_forall. intros i Hi.
    destruct (getClusterOfItem this3 i) eqn:E; [reflexivity|].
    apply getClusterOfItem_none in E. rewrite E3 in E.
    rewrite forallb_forall in Hall.
    rewrite (Hall i) in E; [discriminate|].
    eapply Permutation_in; [exact P1|exact Hi]. }
  destruct S as [todo2 S]. simpl. rewrite S. simpl.
  apply sortTodoList_perm in S.
  destruct todo2 as [|a rest].
  { exfalso. apply Hne. apply Permutation_nil.
    now rewrite S, P1. }
  unfold endOfSession. rewrite R3.
  destruct (rounds this) as [|r rs]; [contradiction|].
  simpl. eauto.
Qed.

(** C7. In a steady-state call whose current item is a member of none of
    the scheduler's clusters, no array is returned: the call throws (the
    runtime's [TypeError], raised by the method call on the [undefined]
    cluster). *)
Theorem updateToDo_unknown_item_throws (this : t) (h : Heap) (rnd : nat -> Q)
  (todo : list ItemRef) (cur : ItemRef) :
  clusters this <> [] ->
  in_some_cluster (clusters this) cur = false ->
  snd (updateToDo this h rnd todo (Some cur)) = JS.Throw JS.TypeError.
Proof.
  intros Hcl Hcur. unfold updateToDo.
  destruct (clusters this) as [|c0 cs] eqn:Ecl; [contradiction|].
  rewrite <- Ecl in *.
  set (this1 := if JS.gt _ _ then advanceRound this else this).
  assert (E1 : clusters this1 = clusters this)
    by (unfold this1; now destruct (JS.gt _ _)).
  assert (E : getClusterOfItem this1 cur = None)
    by (apply getClusterOfItem_none; now rewrite E1).
  now rewrite E.
Qed.

(** Item [9] is in neither cluster. *)
Lemma updateToDo_unknown_item_throws_witness :
  snd (updateToDo two_cluster_scheduler (first_answer_of 9) alternating
                  five_items (Some 9%nat))
  = JS.Throw JS.TypeError.
Proof.
  apply updateToDo_unknown_item_throws.
  - discriminate.
  - reflexivity.
Defined.

(** C3. In a steady-state call on an array without duplicates that returns
    a non-empty array, the first returned item differs from the item shown
    before (the last one of the argument) when the argument has two items or
    more; when it has one item, that item is returned again. *)
Theorem updateToDo_no_repeat (this : t) (h : Heap) (rnd : nat -> Q)
  (todo : list ItemRef) (cur : ItemRef) (this' : t) (q' : list ItemRef) :
  clusters this <> [] ->
  NoDup todo ->
  updateToDo this h rnd todo (Some cur) = (this', JS.Ok q') ->
  q' <> [] ->
  ((2 <= length todo)%nat -> hd_error q' <> JS.last_elem todo)
  /\ (length todo = 1%nat -> hd_error q' = JS.last_elem todo).
Proof.
  intros Hcl Hnd Hcall Hq.
  destruct (updateToDo_steady_inv _ _ _ _ _ Hcl Hcall)
    as (todo2 & finished & Hperm & Hne & _ & ->).
  destruct finished; [contradiction|].
  assert (Hnd2 : NoDup todo2)
    by (eapply Permutation_NoDup; [symmetry; exact Hperm|exact Hnd]).
  pose proof (Permutation_length Hperm) as Hlen.
  destruct (@last_elem_some _ todo) as (p & Hp & Hin).
  { intros ->. apply Hne. now apply Permutation_nil. }
  rewrite Hp. split; intros Hl.
  - destruct todo2 as [|a [|b rest]]; simpl in Hlen; try lia.
    simpl. unfold same_item.
    destruct (Nat.eqb a p) eqn:E; simpl.
    + apply Nat.eqb_eq in E. subst p. intros [= ->].
      inversion Hnd2 as [|? ? Hnin _]. apply Hnin. now left.
    + apply Nat.eqb_neq in E. congruence.
  - destruct todo2 as [|a [|b rest]]; simpl in Hlen; try lia.
    assert (Hpa : In p [a])
      by (eapply Permutation_in; [symmetry; exact Hperm|exact Hin]).
    destruct Hpa as [->|[]].
    simpl. unfold same_item. now rewrite Nat.eqb_refl.
Qed.

(** After the first answer to item [0], with [0] last in the array: sorting
    brings [0] to the front, and the swap moves it to the second place. *)
Lemma updateToDo_no_repeat_witness :
  exists this' q',
    updateToDo two_cluster_scheduler (first_answer_of 0) alternating
               [2; 3; 0]%nat (Some 0%nat)
    = (this', JS.Ok q')
    /\ q' = [2; 0; 3]%nat
    /\ ((2 <= length [2; 3; 0]%nat)%nat
        -> hd_error q' <> JS.last_elem [2; 3; 0]%nat)
    /\ (length [2; 3; 0]%nat = 1%nat
        -> hd_error q' = JS.last_elem [2; 3; 0]%nat).
Proof.
  eexists. eexists.
  split; [vm_compute; reflexivity|].
  split; [reflexivity|].
  eapply (@updateToDo_no_repeat
            two_cluster_scheduler (first_answer_of 0) alternating
           [2; 3; 0]%nat 0%nat).
  - discriminate.
  - repeat constructor; simpl; intuition discriminate.
  - vm_compute. reflexivity.
  - discriminate.
Defined.

(* ================================================================== *)
(** ** ClusteringAlgorithm: the round bookkeeping over a session *)
(* ================================================================== *)

(** A call either leaves the bookkeeping alone or advances one round. *)
Lemma step_progress (this : t) (c : call) :
  progress (step this c) = progress this
  \/ progress (step this c) = progress (advanceRound this).
Proof.
  destruct c as [[[h rnd] todo] cur]. unfold step, updateToDo.
  destruct (clusters this) as [|c0 cs], cur as [cur|]; try (now left).
  destruct (JS.gt _ _);
    (destruct (getClusterOfItem _ cur) as [cc|]; simpl;
     [destruct (JS.strict_eq _ _)|]); auto.
Qed.

Lemma run_rounds (calls : list call) (this : t) :
  rounds (run this calls) = rounds this.
Proof.
  revert this. induction calls as [|c calls IH]; intros this; [reflexivity|].
  simpl. rewrite IH.
  destruct (step_progress this c) as [E|E]; now inversion E.
Qed.

Lemma run_roundID (calls : list call) (this : t) :
  (roundID this <= roundID (run this calls))%nat.
Proof.
  revert this. induction calls as [|c calls IH]; intros this; [simpl; lia|].
  simpl. specialize (IH (step this c)).
  destruct (step_progress this c) as [E|E]; inversion E as [[Hr Hid Hp Ht Hn]];
    simpl in *; lia.
Qed.

Lemma get_in_range (rounds : list Z) (i : nat) :
  Forall (fun r => (0 <= r)%Z) rounds -> (i < length rounds)%nat ->
  exists r, JS.get rounds i = JS.Num r /\ (0 <= r)%Z.
Proof.
  intros Hpos Hi. unfold JS.get.
  destruct (nth_error rounds i) as [r|] eqn:E.
  - exists r. split; [reflexivity|].
    rewrite Forall_forall in Hpos. eapply Hpos, nth_error_In, E.
  - apply nth_error_None in E. lia.
Qed.

(** One call that stays within the schedule keeps the bookkeeping in order
    and lowers none of [roundID], [neededPreviousRounds] and
    [needToGoToNextRound]. *)
Lemma step_in_schedule (this : t) (c : call) :
  bookkeeping_ok this ->
  (roundID (step this c) < length (rounds this))%nat ->
  bookkeeping_ok (step this c)
  /\ JS.le (neededPreviousRounds this) (neededPreviousRounds (step this c)) = true
  /\ JS.le (needToGoToNextRound this) (needToGoToNextRound (step this c)) = true.
Proof.
  intros (Hpos & [a Ha] & [b Hb] & Hneed) Hlt.
  unfold bookkeeping_ok.
  destruct (step_progress this c) as [E|E];
    inversion E as [[Hr Hid Hp Ht Hn]]; clear E;
    rewrite Hr, Hid in *; rewrite Hp, Hn, ?Ht.
  - rewrite Ha, Hb. simpl. rewrite !Z.leb_refl. eauto 10.
  - simpl in Hlt.
    destruct (get_in_range (i := roundID this) Hpos) as (r & Er & Hr0); [lia|].
    destruct (get_in_range (i := (roundID this + 1)%nat) Hpos)
      as (r' & Er' & Hr0'); [lia|].
    rewrite Ha, Hb, Er, Er'. simpl.
    repeat split; eauto; apply Z.leb_le; lia.
Qed.

Lemma le_trans (a b c : JS.jsnum) :
  JS.le a b = true -> JS.le b c = true -> JS.le a c = true.
Proof.
  destruct a, b, c; simpl; try discriminate.
  rewrite !Z.leb_le. lia.
Qed.

(** C4, as the code has it. Over every sequence of calls that keeps
    [roundID] within the schedule, [roundID], [neededPreviousRounds] and
    [needToGoToNextRound] never decrease, and [needThisRound] stays the
    schedule's entry for the current round (so it follows the schedule
    instead of growing). *)
Theorem run_progress_nondecreasing (calls : list call) (this : t) :
  bookkeeping_ok this ->
  (roundID (run this calls) < length (rounds this))%nat ->
  (roundID this <= roundID (run this calls))%nat
  /\ JS.le (neededPreviousRounds this)
           (neededPreviousRounds (run this calls)) = true
  /\ JS.le (needToGoToNextRound this)
           (needToGoToNextRound (run this calls)) = true
  /\ needThisRound (run this calls)
     = JS.get (rounds this) (roundID (run this calls)).
Proof.
  revert this. induction calls as [|c calls IH]; intros this Hok Hlt.
  - destruct Hok as (Hpos & [a Ha] & [b Hb] & Hneed). simpl.
    rewrite Ha, Hb. simpl. rewrite !Z.leb_refl. auto.
  - simpl in *.
    pose proof (run_roundID calls (step this c)) as Hmono.
    assert (Hr : rounds (step this c) = rounds this)
      by (destruct (step_progress this c) as [E|E]; now inversion E).
    destruct (step_in_schedule c Hok) as (Hok' & Hp & Hn); [lia|].
    destruct (IH (step this c) Hok') as (Hid & Hp' & Hn' & Ht');
      [now rewrite Hr|].
    rewrite Hr in Ht'.
    repeat split; [|eapply le_trans; eassumption
                   |eapply le_trans; eassumption|exact Ht'].
    pose proof (run_roundID [c] this) as H1. simpl in H1. lia.
Qed.

(** C4 as stated fails: in the session on a single item, the call after
    the fifth answer starts round 1, and [needThisRound] goes from 4 to 2. *)
Lemma needThisRound_decreases :
  needThisRound single_item_scheduler = JS.Num 4
  /\ needThisRound (run single_item_scheduler five_answers) = JS.Num 2
  /\ ~ counters_nondecreasing single_item_scheduler
                              (run single_item_scheduler five_answers).
Proof.
  split; [reflexivity|]. split; [vm_compute; reflexivity|].
  intros (_ & _ & H & _). vm_compute in H. discriminate.
Qed.

(** The session of the counterexample stays within the schedule, and the
    other three counters do not decrease in it. *)
Lemma run_progress_nondecreasing_witness :
  (roundID single_item_scheduler
   <= roundID (run single_item_scheduler five_answers))%nat
  /\ JS.le (neededPreviousRounds single_item_scheduler)
           (neededPreviousRounds (run single_item_scheduler five_answers))
     = true
  /\ JS.le (needToGoToNextRound single_item_scheduler)
           (needToGoToNextRound (run single_item_scheduler five_answers))
     = true
  /\ needThisRound (run single_item_scheduler five_answers)
     = JS.get (rounds single_item_scheduler)
              (roundID (run single_item_scheduler five_answers)).
Proof.
  apply (run_progress_nondecreasing five_answers (this := single_item_scheduler)).
  - unfold bookkeeping_ok. simpl.
    split; [repeat constructor; discriminate|].
    split; [now exists 0%Z|]. split; [now exists 4%Z|reflexivity].
  - vm_compute. lia.
Defined.

(* ================================================================== *)
(** ** RandomAlgorithm: exhaustion *)
(* ================================================================== *)

(** The array returned by call number [n] (from 0) of a session is the one
    a scheduler with [n] more iterations behind it returns. *)
Lemma run_nth (calls : list ((nat -> Q) * list ItemRef)) :
  forall (this : RandomAlgorithm.t) (n : nat) (rnd : nat -> Q)
         (todo : list ItemRef),
    nth_error calls n = Some (rnd, todo) ->
    nth_error (RandomAlgorithm.run this calls) n
    = Some (snd (RandomAlgorithm.updateToDo
                   (RandomAlgorithm.mk
                      (RandomAlgorithm.todoLength this)
                      (RandomAlgorithm.iteration this + Z.of_nat n)
                      (RandomAlgorithm.maxIterations this))
                   rnd todo)).
Proof.
  induction calls as [|[rnd0 todo0] calls IH]; intros this n rnd todo Hn.
  - destruct n; discriminate.
  - destruct n as [|n]; simpl in Hn |- *.
    + injection Hn as -> ->. rewrite Z.add_0_r. now destruct this.
    + rewrite (IH _ n rnd todo Hn). simpl RandomAlgorithm.todoLength.
      simpl RandomAlgorithm.iteration. simpl RandomAlgorithm.maxIterations.
      replace (RandomAlgorithm.iteration this + 1 + Z.of_nat n)%Z
        with (RandomAlgorithm.iteration this + Z.of_nat (S n))%Z by lia.
      reflexivity.
Qed.

(** C8. With an array of three items at construction and seven passes, the
    calls 1 to 21 return a non-empty array: the shuffled argument when the
    number of calls made before is 0 or a multiple of 3, the argument itself
    otherwise; call 22 returns the empty array. *)
Theorem plain_scheduler_exhaustion (todo0 : list ItemRef)
  (calls : list ((nat -> Q) * list ItemRef)) :
  length todo0 = 3%nat ->
  length calls = 22%nat ->
  (forall c, In c calls -> snd c <> []) ->
  (forall n, (n < 21)%nat ->
     exists rnd todo out,
       nth_error calls n = Some (rnd, todo)
       /\ nth_error (RandomAlgorithm.run (RandomAlgorithm.new todo0) calls) n
          = Some out
       /\ out <> []
       /\ out = if (n mod 3 =? 0)%nat
                then SelectionAlgorithm.shuffleArray rnd todo
                else todo)
  /\ nth_error (RandomAlgorithm.run (RandomAlgorithm.new todo0) calls) 21
     = Some [].
Proof.
  intros H3 H22 Hne. unfold RandomAlgorithm.new. rewrite H3. split.
  - intros n Hn.
    destruct (nth_error calls n) as [[rnd todo]|] eqn:E;
      [|apply nth_error_None in E; lia].
    exists rnd, todo.
    rewrite (run_nth _ _ _ E). simpl RandomAlgorithm.todoLength.
    assert (Htodo : todo <> [])
      by (apply (Hne (rnd, todo)); eapply nth_error_In, E).
    assert (Hsh : SelectionAlgorithm.shuffleArray rnd todo <> []).
    { intros Es. apply Htodo. apply Permutation_nil. rewrite <- Es.
      apply shuffleArray_perm. }
    do 21 (destruct n as [|n];
           [cbn -[SelectionAlgorithm.shuffleArray nth_error];
            eexists; split; [reflexivity|];
            split; [reflexivity|split; [assumption|reflexivity]]|]).
    lia.
  - destruct (nth_error calls 21) as [[rnd todo]|] eqn:E;
      [|apply nth_error_None in E; lia].
    rewrite (run_nth _ _ _ E). reflexivity.
Qed.

Lemma plain_scheduler_exhaustion_witness :
  (forall n, (n < 21)%nat ->
     exists rnd todo out,
       nth_error twenty_two_calls n = Some (rnd, todo)
       /\ nth_error (RandomAlgorithm.run (RandomAlgorithm.new three_items)
                                         twenty_two_calls) n
          = Some out
       /\ out <> []
       /\ out = if (n mod 3 =? 0)%nat
                then SelectionAlgorithm.shuffleArray rnd todo
                else todo)
  /\ nth_error (RandomAlgorithm.run (RandomAlgorithm.new three_items)
                                    twenty_two_calls) 21
     = Some [].
Proof.
  apply (@plain_scheduler_exhaustion three_items twenty_two_calls).
  - reflexivity.
  - reflexivity.
  - intros c Hc. apply repeat_spec in Hc. subst c. discriminate.
Defined.

(* ================================================================== *)
(** ** The centroid seeds *)
(* ================================================================== *)

Lemma loop_step {A : Type} (fuel : nat) (coordinates : list A)
  (limit seed : float) :
  Seeds.loop (S fuel) coordinates limit seed
  = if PrimFloat.leb seed limit
    then option_map (cons (Seeds.pick coordinates seed))
           (Seeds.loop fuel coordinates limit (PrimFloat.add seed Seeds.d02))
    else Some [].
Proof. reflexivity. Qed.

(** For five points the seeds are the points at indexes 1, 2, 3 and 4; for
    seven points, at indexes 1, 2, 4 and 5. *)
Example index_at_example :
  map (Seeds.index_at 5) seed_values = [Some 1; Some 2; Some 3; Some 4]%Z
  /\ map (Seeds.index_at 7) seed_values = [Some 1; Some 2; Some 4; Some 5]%Z.
Proof. split; vm_compute; reflexivity. Qed.

(** The loop of lines 242-245 runs four times, whatever the coordinates. *)
Lemma cents_four {A : Type} (coordinates : list A) (fuel : nat) :
  (5 <= fuel)%nat ->
  Seeds.cents fuel 4 coordinates
  = Some (map (Seeds.pick coordinates) seed_values).
Proof.
  intros Hfuel.
  do 5 (destruct fuel as [|fuel]; [lia|]).
  unfold Seeds.cents.
  set (limit := PrimFloat.mul _ Seeds.d02).
  vm_compute in limit. subst limit.
  rewrite loop_step.
  replace (PrimFloat.leb Seeds.d02 _) with true by (vm_compute; reflexivity).
  set (s2 := PrimFloat.add Seeds.d02 Seeds.d02). vm_compute in s2. subst s2.
  rewrite loop_step.
  replace (PrimFloat.leb _ _) with true by (vm_compute; reflexivity).
  set (s3 := PrimFloat.add _ Seeds.d02). vm_compute in s3. subst s3.
  rewrite loop_step.
  replace (PrimFloat.leb _ _) with true by (vm_compute; reflexivity).
  set (s4 := PrimFloat.add _ Seeds.d02). vm_compute in s4. subst s4.
  rewrite loop_step.
  replace (PrimFloat.leb _ _) with true by (vm_compute; reflexivity).
  set (s5 := PrimFloat.add _ Seeds.d02). vm_compute in s5. subst s5.
  rewrite loop_step.
  replace (PrimFloat.leb _ _) with false by (vm_compute; reflexivity).
  reflexivity.
Qed.

(** *** Binary64 multiplication of a seed by a length

    The product [seed * length] is rounded to 53 bits.  For the four seeds,
    which lie just above [k / 5], and lengths below [2^32], the rounding
    cannot reach the next integer, so the floor of the rounded product is
    the floor of the exact [k * length / 5]. *)

Section Binary64.
Local Open Scope Z_scope.

(** Settles a test [x <=? y] of the goal whose outcome [lia] can tell. *)
Ltac settle_leb x y :=
  first
    [ replace (x <=? y) with true
        by (symmetry; apply Z.leb_le; unfold emax, prec; lia)
    | replace (x <=? y) with false
        by (symmetry; apply Z.leb_gt; unfold emax, prec; lia) ].

(** The number of binary digits brackets the number between two powers of
    two, and is determined by them. *)
Lemma digits2_pos_bounds (p : positive) :
  2 ^ (Zpos (digits2_pos p) - 1) <= Zpos p < 2 ^ Zpos (digits2_pos p).
Proof.
  induction p as [p IH|p IH|]; simpl digits2_pos.
  - rewrite Pos2Z.inj_succ.
    replace (Z.succ (Zpos (digits2_pos p)) - 1)
      with (Z.succ (Zpos (digits2_pos p) - 1)) by lia.
    rewrite !Z.pow_succ_r by lia. lia.
  - rewrite Pos2Z.inj_succ.
    replace (Z.succ (Zpos (digits2_pos p)) - 1)
      with (Z.succ (Zpos (digits2_pos p) - 1)) by lia.
    rewrite !Z.pow_succ_r by lia. lia.
  - simpl. lia.
Qed.

Lemma digits2_pos_unique (p : positive) (k : Z) :
  2 ^ (k - 1) <= Zpos p < 2 ^ k -> Zpos (digits2_pos p) = k.
Proof.
  intros [Hlo Hhi]. pose proof (digits2_pos_bounds p) as [Blo Bhi].
  set (d := Zpos (digits2_pos p)) in *.
  assert (0 < k).
  { destruct (Z.ltb_spec 0 k); [assumption|].
    assert (2 ^ k <= 2 ^ 0)
      by (destruct (Z.eq_dec k 0);
          [subst; lia|rewrite Z.pow_neg_r by lia; simpl; lia]).
    simpl in *. lia. }
  assert (d - 1 < k).
  { apply (Z.pow_lt_mono_r_iff 2); lia. }
  assert (k - 1 < d).
  { apply (Z.pow_lt_mono_r_iff 2); lia. }
  lia.
Qed.

(** Shifting right halves the mantissa, [t] shifts divide it by [2^t]. *)
Lemma shr_1_m (x : shr_record) : 0 <= shr_m x -> shr_m (shr_1 x) = shr_m x / 2.
Proof.
  destruct x as [m r s]. cbn [shr_m]. intros Hm.
  destruct m as [|[p|p|]|p]; cbn [shr_1 shr_m]; try lia.
  - reflexivity.
  - apply (Z.div_unique _ _ _ 1); lia.
  - apply (Z.div_unique _ _ _ 0); lia.
  - reflexivity.
Qed.

Lemma iter_shr_m (p : positive) : forall x : shr_record,
  0 <= shr_m x -> shr_m (iter_pos shr_1 p x) = shr_m x / 2 ^ Zpos p.
Proof.
  induction p as [p IH|p IH|]; intros x Hx; simpl iter_pos.
  - assert (H1 : 0 <= shr_m (shr_1 x))
      by (rewrite shr_1_m by lia; apply Z.div_pos; lia).
    assert (H2 : 0 <= shr_m (iter_pos shr_1 p (shr_1 x)))
      by (rewrite IH by lia; apply Z.div_pos; lia).
    rewrite IH, IH, shr_1_m by lia.
    rewrite !Z.div_div by lia.
    f_equal. replace (Zpos p~1) with (1 + Zpos p + Zpos p) by lia.
    rewrite !Z.pow_add_r by lia. ring.
  - assert (H2 : 0 <= shr_m (iter_pos shr_1 p x))
      by (rewrite IH by lia; apply Z.div_pos; lia).
    rewrite IH, IH by lia.
    rewrite !Z.div_div by lia.
    f_equal. replace (Zpos p~0) with (Zpos p + Zpos p) by lia.
    rewrite !Z.pow_add_r by lia. ring.
  - rewrite shr_1_m by lia. reflexivity.
Qed.

Lemma round_nearest_even_cases (m : Z) (l : location) :
  round_nearest_even m l = m \/ round_nearest_even m l = m + 1.
Proof.
  destruct l as [|[]]; simpl; auto. destruct (Z.even m); auto.
Qed.

(** The shift that brings a mantissa to 53 bits: by the number of digits
    beyond 53. *)
Lemma shr_fexp_shift (P : positive) (ex : Z) (t : positive) :
  Zpos (digits2_pos P) = 53 + Zpos t ->
  -1074 <= ex + Zpos t ->
  shr_fexp prec emax (Zpos P) ex loc_Exact
  = (iter_pos shr_1 t (Build_shr_record (Zpos P) false false), ex + Zpos t).
Proof.
  intros Hd He. unfold shr_fexp, fexp, SpecFloat.emin, prec, emax.
  cbn [Zdigits2 shr_record_of_loc]. rewrite Hd.
  replace (Z.max (53 + Zpos t + ex - 53) (3 - 1024 - 53) - ex)
    with (Zpos t) by lia.
  reflexivity.
Qed.

Lemma shr_fexp_noshift (q : positive) (e : Z) :
  Zpos (digits2_pos q) = 53 ->
  -1074 <= e ->
  shr_fexp prec emax (Zpos q) e loc_Exact
  = (Build_shr_record (Zpos q) false false, e).
Proof.
  intros Hd He. unfold shr_fexp, fexp, SpecFloat.emin, prec, emax.
  cbn [Zdigits2 shr_record_of_loc]. rewrite Hd.
  replace (Z.max (53 + e - 53) (3 - 1024 - 53) - e) with 0 by lia.
  reflexivity.
Qed.

Lemma shr_fexp_one (q : positive) (e : Z) :
  Zpos (digits2_pos q) = 54 ->
  -1074 <= e ->
  shr_fexp prec emax (Zpos q) e loc_Exact
  = (shr_1 (Build_shr_record (Zpos q) false false), e + 1).
Proof.
  intros Hd He. unfold shr_fexp, fexp, SpecFloat.emin, prec, emax.
  cbn [Zdigits2 shr_record_of_loc]. rewrite Hd.
  replace (Z.max (54 + e - 53) (3 - 1024 - 53) - e) with 1 by lia.
  reflexivity.
Qed.

(** Rounding a long mantissa [P * 2^ex] to 53 bits keeps its floor, when
    the bits of the shortened mantissa above the binary point are not all
    ones (so that rounding up cannot carry into the integer part). *)
Lemma round_aux_floor (P : positive) (ex : Z) (t : positive) :
  Zpos (digits2_pos P) = 53 + Zpos t ->
  -1074 <= ex + Zpos t ->
  ex + Zpos t < -1 ->
  (Zpos P / 2 ^ Zpos t) mod 2 ^ (- (ex + Zpos t)) + 1 < 2 ^ (- (ex + Zpos t)) ->
  Seeds.floorSF (binary_round_aux prec emax false (Zpos P) ex loc_Exact)
  = Some (Zpos P / 2 ^ Zpos t / 2 ^ (- (ex + Zpos t))).
Proof.
  intros Hd Hemin Hneg Hmod.
  set (e' := ex + Zpos t) in *.
  set (M := Zpos P / 2 ^ Zpos t) in *.
  pose proof (digits2_pos_bounds P) as [Plo Phi]. rewrite Hd in Plo, Phi.
  replace (53 + Zpos t - 1) with (52 + Zpos t) in Plo by lia.
  rewrite Z.pow_add_r in Plo, Phi by lia.
  assert (H2t : 0 < 2 ^ Zpos t) by (apply Z.pow_pos_nonneg; lia).
  assert (HM : 2 ^ 52 <= M < 2 ^ 53).
  { unfold M. split.
    - apply Z.div_le_lower_bound; lia.
    - apply Z.div_lt_upper_bound; lia. }
  unfold binary_round_aux.
  rewrite (@shr_fexp_shift P ex t Hd Hemin). fold e'.
  set (mrs := iter_pos shr_1 t _).
  assert (Hm : shr_m mrs = M)
    by (unfold mrs; rewrite iter_shr_m; [reflexivity|simpl; lia]).
  rewrite Hm.
  set (M1 := round_nearest_even M (loc_of_shr_record mrs)).
  assert (HM1 : M1 = M \/ M1 = M + 1) by apply round_nearest_even_cases.
  assert (Hb : 0 < 2 ^ (- e')) by (apply Z.pow_pos_nonneg; lia).
  assert (Hfl : M1 / 2 ^ (- e') = M / 2 ^ (- e')).
  { destruct HM1 as [->| ->]; [reflexivity|].
    symmetry. apply (Z.div_unique _ _ _ (M mod 2 ^ (- e') + 1)).
    - left. pose proof (Z.mod_pos_bound M (2 ^ (- e')) Hb). lia.
    - pose proof (Z.div_mod M (2 ^ (- e'))). lia. }
  rewrite <- Hfl.
  destruct M1 as [|q|q] eqn:Eq; [lia| |lia].
  destruct (Z.eq_dec (Zpos q) (2 ^ 53)) as [E53|N53].
  - assert (Hdq : Zpos (digits2_pos q) = 54).
    { apply digits2_pos_unique. rewrite E53. simpl. lia. }
    rewrite (@shr_fexp_one q e' Hdq Hemin).
    rewrite E53.
    change (2 ^ 53) with 9007199254740992.
    cbn [shr_1 shr_m].
    settle_leb (e' + 1) (emax - prec).
    cbn [Seeds.floorSF].
    settle_leb 0 (e' + 1).
    rewrite Z.shiftr_div_pow2 by lia. f_equal.
    replace (- e') with (1 + - (e' + 1)) by lia.
    rewrite Z.pow_add_r by lia.
    rewrite <- Z.div_div by (try apply Z.pow_pos_nonneg; lia).
    reflexivity.
  - assert (Hdq : Zpos (digits2_pos q) = 53).
    { apply digits2_pos_unique. simpl Z.sub. lia. }
    rewrite (@shr_fexp_noshift q e' Hdq Hemin). cbn [shr_m].
    settle_leb e' (emax - prec).
    cbn [Seeds.floorSF].
    settle_leb 0 e'.
    rewrite Z.shiftr_div_pow2 by lia. reflexivity.
Qed.

Lemma iter_xO (u p : positive) : Zpos (Pos.iter xO p u) = Zpos p * 2 ^ Zpos u.
Proof.
  induction u as [|u IH] using Pos.peano_ind.
  - simpl. lia.
  - rewrite Pos.iter_succ, Pos2Z.inj_xO, IH, Pos2Z.inj_succ, Z.pow_succ_r
      by lia.
    ring.
Qed.

(** A length of at most 53 bits becomes a double without rounding: the
    mantissa is the length shifted to 53 bits. *)
Lemma normalize_length (p u : positive) :
  Zpos (digits2_pos p) + Zpos u = 53 ->
  binary_normalize prec emax (Zpos p) 0 false
  = S754_finite false (Pos.iter xO p u) (Zneg u).
Proof.
  intros Hd.
  assert (Hmz : Zpos (digits2_pos (Pos.iter xO p u)) = 53).
  { apply digits2_pos_unique. rewrite iter_xO.
    pose proof (digits2_pos_bounds p) as [Plo Phi].
    assert (H2u : 0 < 2 ^ Zpos u) by (apply Z.pow_pos_nonneg; lia).
    replace 53 with (Zpos (digits2_pos p) + Zpos u) by lia.
    replace (Zpos (digits2_pos p) + Zpos u - 1)
      with (Zpos (digits2_pos p) - 1 + Zpos u) by lia.
    rewrite !Z.pow_add_r by lia. nia. }
  unfold binary_normalize, binary_round, shl_align, fexp, SpecFloat.emin,
    prec, emax.
  replace (Z.max (Zpos (digits2_pos p) + 0 - 53) (3 - 1024 - 53) - 0)
    with (Zneg u) by lia.
  replace (Z.max (Zpos (digits2_pos p) + 0 - 53) (3 - 1024 - 53))
    with (Zneg u) by lia.
  cbv beta iota.
  unfold binary_round_aux.
  fold prec. fold emax.
  rewrite (@shr_fexp_noshift (Pos.iter xO p u) (Zneg u) Hmz) by lia.
  cbn [shr_m loc_of_shr_record round_nearest_even].
  rewrite (@shr_fexp_noshift (Pos.iter xO p u) (Zneg u) Hmz) by lia.
  cbn [shr_m].
  settle_leb (Zneg u) (emax - prec). reflexivity.
Qed.

(** The product of a seed [m * 2^-c], which exceeds [k / 5] by
    [delta / (5 * 2^c)], and a length [p] below [2^32]: its floor is that of
    [k * p / 5]. *)
Lemma seed_product_floor (m p : positive) (c k delta : Z) :
  2 ^ 52 <= Zpos m < 2 ^ 53 ->
  53 <= c <= 55 ->
  5 * Zpos m = k * 2 ^ c + delta ->
  0 <= delta <= 4 ->
  0 <= k ->
  Zpos p < 2 ^ 32 ->
  Seeds.floorSF (SFmul prec emax (S754_finite false m (- c))
                 (binary_normalize prec emax (Zpos p) 0 false))
  = Some (k * Zpos p / 5).
Proof.
  intros Hm Hc H5 Hdelta Hk Hp.
  (* the length, normalised *)
  pose proof (digits2_pos_bounds p) as [Plo Phi].
  assert (Hd : Zpos (digits2_pos p) <= 32).
  { destruct (Z.leb_spec (Zpos (digits2_pos p)) 32) as [H|H]; [exact H|].
    assert (2 ^ 32 <= 2 ^ (Zpos (digits2_pos p) - 1))
      by (apply Z.pow_le_mono_r; lia).
    lia. }
  set (u := Z.to_pos (53 - Zpos (digits2_pos p))).
  assert (Hu : Zpos (digits2_pos p) + Zpos u = 53)
    by (unfold u; rewrite Z2Pos.id; lia).
  rewrite (@normalize_length p u Hu).
  cbn [SFmul xorb].
  (* the product and its size *)
  set (y := Zpos m * Zpos p).
  assert (H2u : 0 < 2 ^ Zpos u) by (apply Z.pow_pos_nonneg; lia).
  assert (HP : Zpos (m * Pos.iter xO p u) = y * 2 ^ Zpos u)
    by (rewrite Pos2Z.inj_mul, iter_xO; unfold y; ring).
  assert (Hylo : 2 ^ 52 <= y) by (unfold y; nia).
  assert (Hyhi : y < 2 ^ 53 * 2 ^ 32) by (unfold y; nia).
  pose proof (digits2_pos_bounds (m * Pos.iter xO p u)) as [Dlo Dhi].
  rewrite HP in Dlo, Dhi.
  set (dP := Zpos (digits2_pos (m * Pos.iter xO p u))) in *.
  assert (HdPlo : 53 + Zpos u <= dP).
  { destruct (Z.leb_spec (53 + Zpos u) dP) as [H|H]; [exact H|].
    assert (2 ^ dP <= 2 ^ (52 + Zpos u)) by (apply Z.pow_le_mono_r; lia).
    rewrite Z.pow_add_r in H0 by lia. nia. }
  assert (HdPhi : dP <= 53 + 32 + Zpos u).
  { destruct (Z.leb_spec dP (53 + 32 + Zpos u)) as [H|H]; [exact H|].
    assert (2 ^ (53 + 32 + Zpos u) <= 2 ^ (dP - 1))
      by (apply Z.pow_le_mono_r; lia).
    rewrite !Z.pow_add_r in H0 by lia. nia. }
  set (t := Z.to_pos (dP - 53)).
  assert (Ht : dP = 53 + Zpos t) by (unfold t; rewrite Z2Pos.id; lia).
  set (a := Zpos t - Zpos u).
  assert (Ha : 0 <= a <= 32) by (unfold a; lia).
  assert (Hta : 2 ^ Zpos t = 2 ^ a * 2 ^ Zpos u)
    by (rewrite <- Z.pow_add_r by lia; f_equal; unfold a; lia).
  assert (H2a : 0 < 2 ^ a) by (apply Z.pow_pos_nonneg; lia).
  assert (H2a' : 2 ^ a <= 2 ^ 32) by (apply Z.pow_le_mono_r; lia).
  (* the exact quotient and remainder of the product *)
  set (C := 2 ^ c) in *.
  assert (HC : 2 ^ 53 <= C) by (apply Z.pow_le_mono_r; lia).
  set (q := k * Zpos p / 5).
  set (j := (k * Zpos p) mod 5).
  assert (Hqj : k * Zpos p = 5 * q + j) by (apply Z.div_mod; lia).
  assert (Hj : 0 <= j < 5) by (apply Z.mod_pos_bound; lia).
  set (r := y - q * C).
  assert (H5r : 5 * r = j * C + delta * Zpos p) by (unfold r, y; nia).
  assert (Hr : 0 <= r /\ r + 2 ^ a < C).
  { change (2 ^ 53) with 9007199254740992 in HC.
    change (2 ^ 32) with 4294967296 in *. nia. }
  set (b := c - a).
  assert (Hb : 0 < 2 ^ b) by (apply Z.pow_pos_nonneg; unfold b; lia).
  assert (HCab : C = 2 ^ b * 2 ^ a)
    by (unfold C, b; rewrite <- Z.pow_add_r by lia; f_equal; lia).
  assert (HX : y * 2 ^ Zpos u / 2 ^ Zpos t = q * 2 ^ b + r / 2 ^ a).
  { rewrite Hta, Z.div_mul_cancel_r by lia.
    replace y with (q * 2 ^ b * 2 ^ a + r) by (unfold r; rewrite HCab; ring).
    rewrite Z.div_add_l by lia. reflexivity. }
  assert (Hra : 0 <= r / 2 ^ a /\ r / 2 ^ a + 1 < 2 ^ b).
  { split; [apply Z.div_pos; lia|].
    assert (r / 2 ^ a < 2 ^ b - 1); [|lia].
    apply Z.div_lt_upper_bound; [lia|]. nia. }
  assert (He' : - c + Zneg u + Zpos t = - b) by (unfold b, a; lia).
  rewrite (@round_aux_floor (m * Pos.iter xO p u) (- c + Zneg u) t).
  - rewrite He', Z.opp_involutive, HP, HX. f_equal.
    rewrite Z.div_add_l by lia.
    rewrite (Z.div_small (r / 2 ^ a)) by lia. fold q. lia.
  - exact Ht.
  - rewrite He'. unfold b. lia.
  - rewrite He'. unfold b. lia.
  - rewrite He', Z.opp_involutive, HP, HX.
    rewrite (Z.add_comm (q * 2 ^ b)), Z.mod_add by lia.
    rewrite Z.mod_small by lia. lia.
Qed.

(** [Math.floor(seed * n)] for a seed [m * 2^-c] just above [k / 5]. *)
Lemma index_at_exact (seed : float) (m : positive) (c k delta n : Z) :
  Prim2SF seed = S754_finite false m (- c) ->
  2 ^ 52 <= Zpos m < 2 ^ 53 ->
  53 <= c <= 55 ->
  5 * Zpos m = k * 2 ^ c + delta ->
  0 <= delta <= 4 ->
  0 <= k ->
  0 <= n < 2 ^ 32 ->
  Seeds.index_at n seed = Some (k * n / 5).
Proof.
  intros Hseed Hm Hc H5 Hdelta Hk Hn.
  unfold Seeds.index_at, Seeds.floor, Seeds.of_int.
  rewrite FloatAxioms.mul_spec, FloatAxioms.of_uint63_spec, Hseed,
    Uint63.of_Z_spec.
  rewrite Z.mod_small
    by (change wB with 9223372036854775808;
        change (2 ^ 32) with 4294967296 in Hn; lia).
  destruct n as [|p|p]; [|apply (@seed_product_floor m p c k delta); lia|lia].
  rewrite Z.mul_0_r. reflexivity.
Qed.

End Binary64.

(** For every length below [2^32] the floored products are the exact
    fifths of the length. *)
Lemma seeds_exact (n : Z) :
  (0 <= n < 2 ^ 32)%Z -> seeds_exact_at n = true.
Proof.
  intros Hn. unfold seeds_exact_at, seed_values, fifths. simpl combine.
  cbn [forallb fst snd].
  rewrite (@index_at_exact _ 7205759403792794 55 1 2 n);
    [|vm_compute; reflexivity|vm_compute; intuition discriminate
     |lia|reflexivity|lia|lia|exact Hn].
  rewrite (@index_at_exact _ 7205759403792794 54 2 2 n);
    [|vm_compute; reflexivity|vm_compute; intuition discriminate
     |lia|reflexivity|lia|lia|exact Hn].
  rewrite (@index_at_exact _ 5404319552844596 53 3 4 n);
    [|vm_compute; reflexivity|vm_compute; intuition discriminate
     |lia|reflexivity|lia|lia|exact Hn].
  rewrite (@index_at_exact _ 7205759403792794 53 4 2 n);
    [|vm_compute; reflexivity|vm_compute; intuition discriminate
     |lia|reflexivity|lia|lia|exact Hn].
  now rewrite !Z.eqb_refl.
Qed.

Lemma at_index_nat {A : Type} (coordinates : list A) (i : Z) :
  (0 <= i)%Z ->
  Seeds.at_index coordinates (Some i) = nth_error coordinates (Z.to_nat i).
Proof. destruct i; simpl; [reflexivity|reflexivity|lia]. Qed.

Lemma pick_exact {A : Type} (coordinates : list A) (k : Z) (seed : float) :
  In (k, seed) (combine [1; 2; 3; 4]%Z seed_values) ->
  seeds_exact_at (Z.of_nat (length coordinates)) = true ->
  Seeds.pick coordinates seed
  = nth_error coordinates (Z.to_nat (fifths (Z.of_nat (length coordinates)) k)).
Proof.
  intros Hin Hex. unfold seeds_exact_at in Hex.
  rewrite forallb_forall in Hex. specialize (Hex _ Hin). simpl in Hex.
  unfold Seeds.pick.
  destruct (Seeds.index_at _ seed) as [i|]; [|discriminate].
  apply Z.eqb_eq in Hex. subst i.
  apply at_index_nat. unfold fifths.
  apply Z.div_pos; [|lia].
  unfold seed_values in Hin. simpl in Hin.
  destruct Hin as [H|[H|[H|[H|[]]]]]; injection H as <- _; lia.
Qed.

(** Both strategies hand [kmeans] the coordinates, the cluster count and
    these four centroids. *)
Lemma computeClusters_seeds (kmeans : KMeansClusteringAlgorithm.kmeans_t)
  (fuel : nat) (h : Heap) (itemPairs : list ItemRef) :
  (5 <= fuel)%nat ->
  KMeansClusteringAlgorithm.computeClusters kmeans fuel h itemPairs
  = Some (KMeansClusteringAlgorithm.clusters_of_indexes h itemPairs
            (kmeans (KMeansClusteringAlgorithm.coordinates h itemPairs)
                    KMeansClusteringAlgorithm.clusterAmount
                    (map (Seeds.pick
                            (KMeansClusteringAlgorithm.coordinates h itemPairs))
                         seed_values))).
Proof.
  intros Hfuel. unfold KMeansClusteringAlgorithm.computeClusters.
  unfold KMeansClusteringAlgorithm.clusterAmount at 1.
  now rewrite (cents_four _ Hfuel).
Qed.

(** C9. For every coordinate list the seed loop runs exactly four times,
    and the initial centroids are the coordinates at
    [floor (seed * length)] for the four doubles [0.2], [0.4],
    [0.6000000000000001] and [0.8] (the running sums of [0.2]); they depend
    on nothing but the coordinate list.  For lists of fewer than [2^32]
    points (every JavaScript array) these are the coordinates at the exact
    fifths [floor (k * length / 5)], [k = 1 .. 4]. *)
Theorem centroid_seeds_deterministic {A : Type} (coordinates : list A)
  (fuel : nat) :
  (5 <= fuel)%nat ->
  Seeds.cents fuel KMeansClusteringAlgorithm.clusterAmount coordinates
  = Some (map (Seeds.pick coordinates) seed_values)
  /\ length (map (Seeds.pick coordinates) seed_values)
     = KMeansClusteringAlgorithm.clusterAmount
  /\ ((Z.of_nat (length coordinates) < 2 ^ 32)%Z ->
      map (Seeds.pick coordinates) seed_values
      = map (fun k => nth_error coordinates
                        (Z.to_nat (fifths (Z.of_nat (length coordinates)) k)))
            [1; 2; 3; 4]%Z).
Proof.
  intros Hfuel. split; [now apply cents_four|]. split; [reflexivity|].
  intros Hlen.
  assert (Hex : seeds_exact_at (Z.of_nat (length coordinates)) = true)
    by (apply seeds_exact; lia).
  unfold seed_values. simpl map.
  repeat f_equal; apply pick_exact; simpl; auto.
Qed.

(** Five points: the centroids are the points at indexes 1, 2, 3 and 4. *)
Lemma centroid_seeds_deterministic_witness :
  Seeds.cents 5 KMeansClusteringAlgorithm.clusterAmount
              [10; 11; 12; 13; 14]%Z
  = Some (map (Seeds.pick [10; 11; 12; 13; 14]%Z) seed_values)
  /\ length (map (Seeds.pick [10; 11; 12; 13; 14]%Z) seed_values)
     = KMeansClusteringAlgorithm.clusterAmount
  /\ ((Z.of_nat (length [10; 11; 12; 13; 14]%Z) < 2 ^ 32)%Z ->
      map (Seeds.pick [10; 11; 12; 13; 14]%Z) seed_values
      = map (fun k => nth_error [10; 11; 12; 13; 14]%Z
                        (Z.to_nat (fifths (Z.of_nat
                                     (length [10; 11; 12; 13; 14]%Z)) k)))
            [1; 2; 3; 4]%Z).
Proof.
  apply (@centroid_seeds_deterministic Z [10; 11; 12; 13; 14]%Z 5).
  lia.
Defined.

(* ================================================================== *)
(** ** The cluster-assignment strategies: partition *)
(* ================================================================== *)

Lemma indexOf_fresh (pre arr : list nat) (v : nat) :
  ~ In v pre -> JS.indexOf (pre ++ v :: arr) v = Some (length pre).
Proof.
  induction pre as [|x pre IH]; intros Hnin; simpl.
  - now rewrite Nat.eqb_refl.
  - destruct (Nat.eqb x v) eqn:E.
    + apply Nat.eqb_eq in E. exfalso. apply Hnin. now left.
    + rewrite IH; [reflexivity|]. intros H. apply Hnin. now right.
Qed.

Lemma indexOf_seen (pre arr : list nat) (v : nat) :
  In v pre ->
  exists j, JS.indexOf (pre ++ arr) v = Some j /\ (j < length pre)%nat.
Proof.
  induction pre as [|x pre IH]; intros Hin; [contradiction|]. simpl.
  destruct (Nat.eqb x v) eqn:E.
  - exists 0%nat. split; [reflexivity|lia].
  - destruct Hin as [->|Hin]; [now rewrite Nat.eqb_refl in E|].
    destruct (IH Hin) as (j & -> & Hj). exists (S j). split; [reflexivity|lia].
Qed.

(** Filtering the tail [arr] of an array for first occurrences keeps, once
    each, the values of [arr] not seen in the part [pre] before it. *)
Lemma first_occurrences (arr : list nat) :
  forall pre all : list nat,
    all = pre ++ arr ->
    let kept :=
      JS.filteri
        (fun value index =>
           match JS.indexOf all value with
           | Some i => Nat.eqb i index
           | None => false
           end)
        (length pre) arr in
    NoDup kept /\ forall l, In l kept <-> In l arr /\ ~ In l pre.
Proof.
  induction arr as [|x arr IH]; intros pre all Hall; simpl.
  - split; [constructor|]. intros l. tauto.
  - specialize (IH (pre ++ [x]) all).
    rewrite <- app_assoc in IH. specialize (IH Hall).
    rewrite length_app, Nat.add_1_r in IH. simpl in IH.
    destruct IH as [Hnd Hin].
    set (test := match JS.indexOf all x with
                 | Some i => Nat.eqb i (length pre)
                 | None => false
                 end).
    destruct (in_dec Nat.eq_dec x pre) as [Hx|Hx].
    + assert (Et : test = false).
      { unfold test.
        destruct (@indexOf_seen pre (x :: arr) x Hx) as (j & Ej & Hj).
        rewrite Hall, Ej. apply Nat.eqb_neq. lia. }
      rewrite Et. split; [exact Hnd|].
      intros l. rewrite Hin, in_app_iff. simpl. split.
      * intros [Ha Hn]. split; [now right|tauto].
      * intros [[->|Ha] Hn]; [contradiction|].
        split; [exact Ha|]. intros [Hp|[->|[]]]; contradiction.
    + assert (Et : test = true).
      { unfold test. rewrite Hall, (@indexOf_fresh pre arr x Hx).
        apply Nat.eqb_refl. }
      rewrite Et. split.
      * constructor; [|exact Hnd].
        rewrite Hin, in_app_iff. simpl. tauto.
      * intros l. simpl. rewrite Hin, in_app_iff. simpl. split.
        -- intros [->|[Ha Hn]]; [tauto|]. split; [now right|tauto].
        -- intros [[->|Ha] Hn]; [now left|].
           destruct (Nat.eq_dec x l) as [->|Hne]; [now left|].
           right. split; [exact Ha|]. intros [Hp|[->|[]]]; tauto.
Qed.

Lemma distinct_spec (clustersIndexes : list nat) :
  NoDup (KMeansClusteringAlgorithm.distinct clustersIndexes)
  /\ forall l, In l (KMeansClusteringAlgorithm.distinct clustersIndexes)
               <-> In l clustersIndexes.
Proof.
  destruct (@first_occurrences clustersIndexes [] clustersIndexes eq_refl)
    as [Hnd Hin].
  split; [exact Hnd|]. intros l.
  unfold KMeansClusteringAlgorithm.distinct. rewrite (Hin l). simpl. tauto.
Qed.

Section Partition.
Context {A : Type}.

Lemma filter_split_perm (p : A -> bool) (l : list A) :
  Permutation (filter p l ++ filter (fun a => negb (p a)) l) l.
Proof.
  induction l as [|a l IH]; simpl; [reflexivity|].
  destruct (p a); simpl.
  - now constructor.
  - rewrite <- Permutation_middle. now constructor.
Qed.

Lemma filter_under (p q : A -> bool) (l : list A) :
  (forall a, q a = true -> p a = false) ->
  filter q (filter (fun a => negb (p a)) l) = filter q l.
Proof.
  intros H. induction l as [|a l IH]; simpl; [reflexivity|].
  destruct (q a) eqn:Eq.
  - rewrite (H a Eq). simpl. now rewrite Eq, IH.
  - destruct (p a); simpl; [exact IH|]. now rewrite Eq, IH.
Qed.

(** Grouping by label: when every element has one of the distinct labels
    [D], the groups taken label by label make up the list. *)
Lemma groups_partition (lab : A -> option nat) (D : list nat) :
  NoDup D ->
  forall items : list A,
    (forall a, In a items -> exists l, lab a = Some l /\ In l D) ->
    Permutation
      (concat
         (map (fun l =>
                 filter (fun a => match lab a with
                                  | Some l' => Nat.eqb l' l
                                  | None => false
                                  end) items)
              D))
      items.
Proof.
  induction 1 as [|l D Hl Hnd IH]; intros items Hlab; simpl.
  - destruct items as [|a items]; [reflexivity|].
    destruct (Hlab a (or_introl eq_refl)) as (l & _ & []).
  - set (p := fun a => match lab a with
                       | Some l' => Nat.eqb l' l
                       | None => false
                       end).
    rewrite <- (filter_split_perm p items) at 2.
    apply Permutation_app_head.
    rewrite <- (IH (filter (fun a => negb (p a)) items)).
    + apply Permutation_refl'. f_equal.
      apply map_ext_in. intros l' Hl'. symmetry. apply filter_under.
      intros a. unfold p. destruct (lab a) as [la|]; [|discriminate].
      intros E. apply Nat.eqb_eq in E. subst la.
      apply Nat.eqb_neq. intros ->. contradiction.
    + intros a Ha. apply filter_In in Ha as [Ha Hp].
      destruct (Hlab a Ha) as (la & Ela & [<-|Hla]).
      * unfold p in Hp. rewrite Ela, Nat.eqb_refl in Hp. discriminate.
      * eauto.
Qed.

Lemma firstn_chunks (n m : nat) (l : list A) :
  firstn n l ++ firstn m (skipn n l) = firstn (n + m) l.
Proof.
  revert l. induction n as [|n IH]; intros l; [reflexivity|].
  destruct l as [|a l]; simpl; [now rewrite firstn_nil|].
  now rewrite IH.
Qed.
End Partition.

Lemma clusters_of_indexes_members (h : Heap) (itemPairs : list ItemRef)
  (clustersIndexes : list nat) :
  map Cluster.itemPairs
      (KMeansClusteringAlgorithm.clusters_of_indexes h itemPairs clustersIndexes)
  = map (fun l => filter (KMeansClusteringAlgorithm.has_label
                            h clustersIndexes l) itemPairs)
        (KMeansClusteringAlgorithm.distinct clustersIndexes).
Proof.
  unfold KMeansClusteringAlgorithm.clusters_of_indexes.
  rewrite map_map. reflexivity.
Qed.

Lemma clusters_of_indexes_ids (h : Heap) (itemPairs : list ItemRef)
  (clustersIndexes : list nat) :
  map Cluster.ID
      (KMeansClusteringAlgorithm.clusters_of_indexes h itemPairs clustersIndexes)
  = KMeansClusteringAlgorithm.distinct clustersIndexes.
Proof.
  unfold KMeansClusteringAlgorithm.clusters_of_indexes.
  rewrite map_map. simpl. apply map_id.
Qed.

(** The clusters built from the labels make up the item list, when every
    item's [index] is a position of the label array. *)
Lemma clusters_of_indexes_partition (h : Heap) (itemPairs : list ItemRef)
  (clustersIndexes : list nat) :
  Forall (fun item => (index (h item) < length clustersIndexes)%nat) itemPairs ->
  Permutation
    (concat (map Cluster.itemPairs
               (KMeansClusteringAlgorithm.clusters_of_indexes
                  h itemPairs clustersIndexes)))
    itemPairs.
Proof.
  intros Hidx. rewrite clusters_of_indexes_members.
  destruct (distinct_spec clustersIndexes) as [Hnd Hin].
  apply (groups_partition
           (fun item => nth_error clustersIndexes (index (h item))) Hnd).
  intros item Hitem. rewrite Forall_forall in Hidx.
  destruct (nth_error clustersIndexes (index (h item))) as [l|] eqn:E.
  - exists l. split; [reflexivity|]. apply Hin. eapply nth_error_In, E.
  - apply nth_error_None in E. specialize (Hidx item Hitem). lia.
Qed.

Lemma NoDup_app_disjoint {A : Type} (l1 l2 : list A) (a : A) :
  NoDup (l1 ++ l2) -> In a l1 -> ~ In a l2.
Proof.
  induction l1 as [|x l1 IH]; intros Hnd Hin; [contradiction|].
  simpl in Hnd. inversion Hnd as [|? ? Hx Hnd']; subst.
  destruct Hin as [->|Hin]; [|now apply IH].
  intros H2. apply Hx, in_or_app. now right.
Qed.

(** In a strict partition of a duplicate-free list every item is a member
    of one cluster and of no other. *)
Lemma exactly_one_cluster (cs : list Cluster.t) (items : list ItemRef) :
  Permutation (concat (map Cluster.itemPairs cs)) items ->
  NoDup items ->
  forall item, In item items ->
    exists pre c post,
      cs = pre ++ c :: post
      /\ In item (Cluster.itemPairs c)
      /\ forall c', In c' (pre ++ post) -> ~ In item (Cluster.itemPairs c').
Proof.
  intros Hperm Hnd item Hin.
  assert (Hnd' : NoDup (concat (map Cluster.itemPairs cs)))
    by (eapply Permutation_NoDup; [symmetry; exact Hperm|exact Hnd]).
  assert (Hin' : In item (concat (map Cluster.itemPairs cs)))
    by (eapply Permutation_in; [symmetry; exact Hperm|exact Hin]).
  clear Hperm Hnd Hin.
  induction cs as [|c cs IH]; simpl in *; [contradiction|].
  apply in_app_or in Hin' as [Hc|Hrest].
  - exists [], c, cs. split; [reflexivity|]. split; [exact Hc|].
    intros c' Hc' Hmem.
    apply (NoDup_app_disjoint _ _ item Hnd' Hc).
    apply in_concat. exists (Cluster.itemPairs c'). split; [|exact Hmem].
    now apply in_map.
  - destruct (IH (NoDup_app_remove_l _ _ Hnd') Hrest)
      as (pre & c0 & post & -> & H0 & Hothers).
    exists (c :: pre), c0, post. split; [reflexivity|]. split; [exact H0|].
    intros c' [<-|Hc'] Hmem; [|now apply (Hothers c')].
    apply (NoDup_app_disjoint _ _ item Hnd' Hmem Hrest).
Qed.

Lemma fill_members (lens : list nat) :
  forall (i total : nat) (shuffled : list ItemRef),
    concat (map Cluster.itemPairs
              (RandomClusteringAlgorithm.fill i total lens shuffled))
    = firstn (list_sum lens) (skipn total shuffled).
Proof.
  induction lens as [|n lens IH]; intros i total shuffled; simpl;
    [reflexivity|].
  rewrite IH. unfold JS.slice.
  replace (total + n - total)%nat with n by lia.
  rewrite Nat.add_comm, <- skipn_skipn. apply firstn_chunks.
Qed.

Lemma fill_ids (lens : list nat) :
  forall (i total : nat) (shuffled : list ItemRef),
    map Cluster.ID (RandomClusteringAlgorithm.fill i total lens shuffled)
    = seq i (length lens).
Proof.
  induction lens as [|n lens IH]; intros i total shuffled; simpl;
    [reflexivity|].
  now rewrite IH.
Qed.

Lemma fill_length (lens : list nat) (i total : nat) (shuffled : list ItemRef) :
  length (RandomClusteringAlgorithm.fill i total lens shuffled) = length lens.
Proof.
  rewrite <- (length_map Cluster.ID), fill_ids. apply length_seq.
Qed.

(** C5, as the code has it. When [kmeans] keeps its contract and every
    item's [index] is a position of the item list, both strategies return
    clusters that make up the item list, every item once (a strict
    partition); there are as many clusters as distinct labels, at most four;
    the ids of the vector-based clusters are distinct labels below four, and
    the ids of the random clusters are [0 .. m-1] for the [m] clusters. *)
Theorem computeClusters_partition
  (kmeans : KMeansClusteringAlgorithm.kmeans_t) (fuel : nat) (h : Heap)
  (rnd : nat -> Q) (itemPairs : list ItemRef) :
  kmeans_contract kmeans ->
  (5 <= fuel)%nat ->
  Forall (fun item => (index (h item) < length itemPairs)%nat) itemPairs ->
  exists byVector byRandom : list Cluster.t,
    KMeansClusteringAlgorithm.computeClusters kmeans fuel h itemPairs
    = Some byVector
    /\ RandomClusteringAlgorithm.computeClusters kmeans fuel h rnd itemPairs
       = Some byRandom
    /\ Permutation (concat (map Cluster.itemPairs byVector)) itemPairs
    /\ Permutation (concat (map Cluster.itemPairs byRandom)) itemPairs
    /\ length byRandom = length byVector
    /\ (length byVector <= KMeansClusteringAlgorithm.clusterAmount)%nat
    /\ NoDup (map Cluster.ID byVector)
    /\ Forall (fun id => (id < KMeansClusteringAlgorithm.clusterAmount)%nat)
              (map Cluster.ID byVector)
    /\ map Cluster.ID byRandom = seq 0 (length byRandom).
Proof.
  intros Hk Hfuel Hidx.
  unfold KMeansClusteringAlgorithm.computeClusters,
         RandomClusteringAlgorithm.computeClusters.
  change RandomClusteringAlgorithm.clusterAmount
    with KMeansClusteringAlgorithm.clusterAmount.
  set (coordinates := KMeansClusteringAlgorithm.coordinates h itemPairs).
  unfold KMeansClusteringAlgorithm.clusterAmount at 1 3.
  rewrite (cents_four coordinates Hfuel).
  set (labels := kmeans coordinates _ _).
  destruct (Hk coordinates (map (Seeds.pick coordinates) seed_values))
    as [Hlen Hlt].
  fold labels in Hlen, Hlt.
  assert (Hlen' : length labels = length itemPairs).
  { rewrite Hlen. unfold coordinates, KMeansClusteringAlgorithm.coordinates.
    now rewrite !length_map. }
  rewrite <- Hlen' in Hidx.
  pose proof (@clusters_of_indexes_partition h itemPairs labels Hidx) as Hpart.
  destruct (distinct_spec labels) as [Hnd Hin].
  set (byVector :=
         KMeansClusteringAlgorithm.clusters_of_indexes h itemPairs labels)
    in *.
  assert (Hids : map Cluster.ID byVector
                 = KMeansClusteringAlgorithm.distinct labels)
    by apply clusters_of_indexes_ids.
  assert (Hbound : Forall (fun id => (id < KMeansClusteringAlgorithm.clusterAmount)%nat)
                          (map Cluster.ID byVector)).
  { rewrite Hids. apply Forall_forall. intros l Hl.
    rewrite Forall_forall in Hlt. apply Hlt, Hin, Hl. }
  eexists. eexists. split; [reflexivity|]. split; [reflexivity|].
  split; [exact Hpart|]. split; [|split; [|split; [|split; [|split]]]].
  - rewrite fill_members.
    rewrite <- (map_map Cluster.itemPairs (@length ItemRef)), <- length_concat.
    rewrite (Permutation_length Hpart).
    rewrite <- (Permutation_length (shuffleArray_perm rnd itemPairs)).
    simpl. rewrite firstn_all. apply shuffleArray_perm.
  - now rewrite fill_length, length_map.
  - rewrite <- (length_map Cluster.ID), Hids.
    assert (Hincl : incl (KMeansClusteringAlgorithm.distinct labels)
                         (seq 0 KMeansClusteringAlgorithm.clusterAmount)).
    { intros l Hl. apply in_seq. rewrite Forall_forall in Hlt.
      specialize (Hlt l (proj1 (Hin l) Hl)). lia. }
    pose proof (NoDup_incl_length Hnd Hincl) as Hle.
    now rewrite length_seq in Hle.
  - now rewrite Hids.
  - exact Hbound.
  - now rewrite fill_ids, fill_length.
Qed.

Lemma nearest_bound (p : Z * Z) (cents : list (option (Z * Z))) :
  forall (j best : nat) (min : option Z) (n : nat),
    (best < n)%nat -> (j + length cents <= n)%nat ->
    (nearest p cents j best min < n)%nat.
Proof.
  induction cents as [|c cents IH]; intros j best min n Hb Hj; simpl in *;
    [exact Hb|].
  destruct c as [q|]; [|apply IH; lia].
  destruct (match min with Some m => _ | None => true end); apply IH; lia.
Qed.

Lemma nearest_centroid_contract : kmeans_contract nearest_centroid.
Proof.
  intros data cents. unfold nearest_centroid. cbv zeta. split.
  - apply length_map.
  - apply Forall_forall. intros l Hl. apply in_map_iff in Hl as (p & <- & _).
    pose proof (firstn_le_length KMeansClusteringAlgorithm.clusterAmount cents)
      as Hle.
    apply nearest_bound; unfold KMeansClusteringAlgorithm.clusterAmount in *.
    all: lia.
Qed.

(** Five items on a line, labelled by the nearest seed. *)
Lemma computeClusters_partition_witness :
  exists byVector byRandom : list Cluster.t,
    KMeansClusteringAlgorithm.computeClusters nearest_centroid 5 on_a_line
                                              five_items
    = Some byVector
    /\ RandomClusteringAlgorithm.computeClusters nearest_centroid 5 on_a_line
                                                 alternating five_items
       = Some byRandom
    /\ Permutation (concat (map Cluster.itemPairs byVector)) five_items
    /\ Permutation (concat (map Cluster.itemPairs byRandom)) five_items
    /\ length byRandom = length byVector
    /\ (length byVector <= KMeansClusteringAlgorithm.clusterAmount)%nat
    /\ NoDup (map Cluster.ID byVector)
    /\ Forall (fun id => (id < KMeansClusteringAlgorithm.clusterAmount)%nat)
              (map Cluster.ID byVector)
    /\ map Cluster.ID byRandom = seq 0 (length byRandom).
Proof.
  apply (@computeClusters_partition nearest_centroid 5 on_a_line alternating
                                    five_items).
  - exact nearest_centroid_contract.
  - lia.
  - unfold five_items. repeat (constructor; [simpl; lia|]). constructor.
Defined.

(** C5 as stated fails on a list of one item: each strategy returns a
    single cluster, so the ids are not [0 .. 3]. *)
Lemma one_item_one_cluster :
  KMeansClusteringAlgorithm.computeClusters nearest_centroid 5 on_a_line
                                            [0%nat]
  = Some [Cluster.new 3 [0%nat]]
  /\ RandomClusteringAlgorithm.computeClusters nearest_centroid 5 on_a_line
                                               alternating [0%nat]
     = Some [Cluster.new 0 [0%nat]]
  /\ ~ ids_are_0_to 4 [Cluster.new 3 [0%nat]]
  /\ ~ ids_are_0_to 4 [Cluster.new 0 [0%nat]].
Proof.
  split; [vm_compute; reflexivity|]. split; [vm_compute; reflexivity|].
  split; intros H; apply Permutation_length in H; discriminate.
Qed.

(* ================================================================== *)
(** ** The domain of [sortingID] *)
(* ================================================================== *)

Lemma forallb_over_map {A B : Type} (f : B -> bool) (g : A -> B) (l : list A) :
  forallb f (map g l) = forallb (fun a => f (g a)) l.
Proof.
  induction l as [|a l IH]; simpl; [reflexivity|]. now rewrite IH.
Qed.

Lemma sortingID_in_domain_ext (cs cs' : list Cluster.t) :
  map Cluster.sortingID cs = map Cluster.sortingID cs' ->
  sortingID_in_domain cs = sortingID_in_domain cs'.
Proof.
  intros E. unfold sortingID_in_domain.
  assert (El : length cs = length cs')
    by (rewrite <- (length_map Cluster.sortingID cs), E; apply length_map).
  rewrite El.
  rewrite <- (forallb_over_map
                (fun s => (0 <=? s)%Z && (s <? Z.of_nat (length cs'))%Z)
                Cluster.sortingID cs).
  rewrite <- (forallb_over_map
                (fun s => (0 <=? s)%Z && (s <? Z.of_nat (length cs'))%Z)
                Cluster.sortingID cs').
  now rewrite E.
Qed.

Lemma update_cluster_of_sortingIDs (h : Heap) (cur : ItemRef)
  (cs : list Cluster.t) :
  map Cluster.sortingID (update_cluster_of h cur cs)
  = map Cluster.sortingID cs.
Proof.
  induction cs as [|c cs IH]; simpl; [reflexivity|].
  destruct (includes (Cluster.itemPairs c) cur); simpl.
  - unfold Cluster.getTimesSeen.
    now destruct (Cluster.allWordsSeenOnce h c).
  - now rewrite IH.
Qed.

(** The rotation keeps every [sortingID] that is not negative within the
    domain. *)
Lemma rotation_in_domain (cs : list Cluster.t) :
  cs <> [] ->
  Forall (fun c => (0 <= Cluster.sortingID c)%Z) cs ->
  sortingID_in_domain (map (Cluster.increaseSortingID (length cs)) cs) = true.
Proof.
  intros Hne Hpos. unfold sortingID_in_domain.
  rewrite length_map, forallb_over_map. apply forallb_forall.
  intros c Hc. rewrite Forall_forall in Hpos. specialize (Hpos c Hc).
  simpl.
  assert (Hn : (0 < Z.of_nat (length cs))%Z)
    by (destruct cs; [contradiction|simpl; lia]).
  pose proof (Z.rem_bound_pos (Cluster.sortingID c + 1)
                              (Z.of_nat (length cs))) as Hb.
  apply andb_true_iff. split; [apply Z.leb_le|apply Z.ltb_lt]; lia.
Qed.

Lemma in_domain_nonneg (cs : list Cluster.t) :
  sortingID_in_domain cs = true ->
  Forall (fun c => (0 <= Cluster.sortingID c)%Z) cs.
Proof.
  unfold sortingID_in_domain. rewrite forallb_forall, Forall_forall.
  intros H c Hc. specialize (H c Hc).
  apply andb_true_iff in H as [H _]. now apply Z.leb_le.
Qed.

(** A call keeps the [sortingID]s within their domain. *)
Lemma step_keeps_domain (this : t) (c : call) :
  sortingID_in_domain (clusters this) = true ->
  sortingID_in_domain (clusters (step this c)) = true.
Proof.
  intros Hdom. destruct c as [[[h rnd] todo] cur]. unfold step, updateToDo.
  destruct (clusters this) as [|c0 cs] eqn:Ecl.
  { simpl. now rewrite Ecl. }
  destruct cur as [cur|]; [|simpl; now rewrite Ecl].
  set (this1 := if JS.gt _ _ then advanceRound this else this).
  assert (E1 : clusters this1 = clusters this)
    by (unfold this1; now destruct (JS.gt _ _)).
  destruct (getClusterOfItem this1 cur) as [cc|];
    [|simpl; now rewrite E1, Ecl].
  simpl fst.
  assert (Hup : sortingID_in_domain (update_cluster_of h cur (clusters this1))
                = true).
  { rewrite (sortingID_in_domain_ext
               (update_cluster_of h cur (clusters this1)) (clusters this1)
               (update_cluster_of_sortingIDs h cur (clusters this1))).
    now rewrite E1, Ecl. }
  destruct (JS.strict_eq _ _); simpl; [|exact Hup].
  apply rotation_in_domain; [|now apply in_domain_nonneg].
  rewrite E1, Ecl. simpl.
  destruct (includes (Cluster.itemPairs c0) cur); discriminate.
Qed.

(** ... and so does every sequence of calls. *)
Lemma run_keeps_domain (calls : list call) (this : t) :
  sortingID_in_domain (clusters this) = true ->
  sortingID_in_domain (clusters (run this calls)) = true.
Proof.
  revert this. induction calls as [|c calls IH]; intros this H; [exact H|].
  simpl. apply IH, step_keeps_domain, H.
Qed.

Lemma fill_sortingIDs (lens : list nat) :
  forall (i total : nat) (shuffled : list ItemRef),
    map Cluster.sortingID (RandomClusteringAlgorithm.fill i total lens shuffled)
    = map Z.of_nat (seq i (length lens)).
Proof.
  induction lens as [|n lens IH]; intros i total shuffled; simpl;
    [reflexivity|].
  now rewrite IH.
Qed.

(** The clusters of the size-matched random strategy start within the
    domain. *)
Lemma random_clusters_in_domain (lens : list nat) (shuffled : list ItemRef) :
  sortingID_in_domain (RandomClusteringAlgorithm.fill 0 0 lens shuffled) = true.
Proof.
  unfold sortingID_in_domain.
  rewrite <- (forallb_over_map
                (fun s => (0 <=? s)%Z
                          && (s <? Z.of_nat
                                     (length (RandomClusteringAlgorithm.fill
                                                0 0 lens shuffled)))%Z)
                Cluster.sortingID).
  rewrite fill_sortingIDs, fill_length, forallb_over_map.
  apply forallb_forall. intros k Hk. apply in_seq in Hk.
  apply andb_true_iff. split; [apply Z.leb_le|apply Z.ltb_lt]; lia.
Qed.

(** The schedulers of the size-matched random strategy keep every
    [sortingID] within the domain, at every state of a session. *)
Lemma random_scheduler_in_domain
  (kmeans : KMeansClusteringAlgorithm.kmeans_t) (fuel : nat) (h : Heap)
  (rnd : nat -> Q) (itemPairs : list ItemRef) (this : t) (calls : list call) :
  RandomClusteringAlgorithm.new kmeans fuel h rnd itemPairs = Some this ->
  sortingID_in_domain (clusters (run this calls)) = true.
Proof.
  unfold RandomClusteringAlgorithm.new,
         RandomClusteringAlgorithm.computeClusters.
  destruct (Seeds.cents _ _ _) as [cents|]; [|discriminate].
  intros [= <-]. apply run_keeps_domain. apply random_clusters_in_domain.
Qed.

(** C6. The vector-based strategy takes the labels of [kmeans] as cluster
    ids, and the constructor of a cluster takes the id as [sortingID].  So
    whenever the label array holds a label that is not below the number of
    distinct labels (the labels have a gap), the scheduler as constructed
    has a cluster whose [sortingID] is that label, outside
    [[0, numClusters)]. *)
Theorem kmeans_sortingID_outside_domain
  (kmeans : KMeansClusteringAlgorithm.kmeans_t) (fuel : nat) (h : Heap)
  (itemPairs : list ItemRef) (cents : list (option (Z * Z)))
  (clustersIndexes : list nat) (l : nat) :
  Seeds.cents fuel KMeansClusteringAlgorithm.clusterAmount
              (KMeansClusteringAlgorithm.coordinates h itemPairs)
  = Some cents ->
  kmeans (KMeansClusteringAlgorithm.coordinates h itemPairs)
         KMeansClusteringAlgorithm.clusterAmount cents
  = clustersIndexes ->
  In l clustersIndexes ->
  (length (KMeansClusteringAlgorithm.distinct clustersIndexes) <= l)%nat ->
  exists this : t,
    KMeansClusteringAlgorithm.new kmeans fuel h itemPairs = Some this
    /\ length (clusters this)
       = length (KMeansClusteringAlgorithm.distinct clustersIndexes)
    /\ (exists c : Cluster.t,
          In c (clusters this)
          /\ Cluster.ID c = l
          /\ Cluster.sortingID c = Z.of_nat l
          /\ (Z.of_nat (length (clusters this)) <= Cluster.sortingID c)%Z)
    /\ sortingID_in_domain (clusters this) = false.
Proof.
  intros Hcents Hlabels Hin Hgap.
  unfold KMeansClusteringAlgorithm.new,
         KMeansClusteringAlgorithm.computeClusters.
  rewrite Hcents, Hlabels. simpl option_map.
  eexists. split; [reflexivity|]. simpl clusters.
  set (cs := KMeansClusteringAlgorithm.clusters_of_indexes
               h itemPairs clustersIndexes).
  assert (Hlen : length cs
                 = length (KMeansClusteringAlgorithm.distinct clustersIndexes)).
  { unfold cs.
    now rewrite <- (@clusters_of_indexes_ids h itemPairs clustersIndexes),
                length_map. }
  set (c := Cluster.new l
              (filter (KMeansClusteringAlgorithm.has_label h clustersIndexes l)
                      itemPairs)).
  assert (Hc : In c cs).
  { unfold cs, KMeansClusteringAlgorithm.clusters_of_indexes.
    apply in_map_iff. exists l. split; [reflexivity|].
    now apply (proj2 (distinct_spec clustersIndexes)). }
  split; [exact Hlen|]. split.
  - exists c. repeat split; [exact Hc|]. simpl. lia.
  - destruct (sortingID_in_domain cs) eqn:E; [|reflexivity].
    unfold sortingID_in_domain in E.
    rewrite forallb_forall in E. specialize (E c Hc).
    apply andb_true_iff in E as [_ E]. apply Z.ltb_lt in E.
    simpl in E. lia.
Qed.

(** Two items at different positions, with the labels 2 and 3: the
    clusters get the [sortingID]s 2 and 3 where there are two clusters. *)
Lemma kmeans_sortingID_outside_domain_witness :
  exists this : t,
    KMeansClusteringAlgorithm.new (fun _ _ _ => [2; 3]%nat) 5 on_a_line
                                  [0; 1]%nat
    = Some this
    /\ length (clusters this)
       = length (KMeansClusteringAlgorithm.distinct [2; 3]%nat)
    /\ (exists c : Cluster.t,
          In c (clusters this)
          /\ Cluster.ID c = 3%nat
          /\ Cluster.sortingID c = Z.of_nat 3
          /\ (Z.of_nat (length (clusters this)) <= Cluster.sortingID c)%Z)
    /\ sortingID_in_domain (clusters this) = false.
Proof.
  apply (@kmeans_sortingID_outside_domain
           (fun _ _ _ => [2; 3]%nat) 5 on_a_line [0; 1]%nat
           [Some (0, 0); Some (0, 0); Some (10, 0); Some (10, 0)]%Z
           [2; 3]%nat 3%nat).
  - vm_compute. reflexivity.
  - reflexivity.
  - simpl. auto.
  - simpl. lia.
Defined.

(* ================================================================== *)
(** ** sortTodoList: the stable ordering by priority *)
(* ================================================================== *)

Section SortByKey.
Context {A : Type} (key : A -> Z).

(** The comparator of a numeric key, as [sortTodoList] has it. *)
Let by_key (a b : A) : comparison := Z.compare (key a - key b) 0.

Lemma insert_sorted (x : A) (l : list A) :
  StronglySorted (fun a b => (key a <= key b)%Z) l ->
  StronglySorted (fun a b => (key a <= key b)%Z) (JS.insert by_key x l).
Proof.
  induction 1 as [|y l Hs IH Hy]; simpl.
  - repeat constructor.
  - unfold by_key at 1. destruct (Z.compare_spec (key x - key y) 0) as [E|E|E].
    + constructor; [now constructor|].
      constructor; [lia|].
      rewrite Forall_forall in Hy |- *. intros z Hz. specialize (Hy z Hz). lia.
    + constructor; [now constructor|].
      constructor; [lia|].
      rewrite Forall_forall in Hy |- *. intros z Hz. specialize (Hy z Hz). lia.
    + constructor; [exact IH|].
      rewrite Forall_forall in Hy |- *. intros z Hz.
      apply (Permutation_in z (insert_perm by_key x l)) in Hz.
      destruct Hz as [<-|Hz]; [lia|now apply Hy].
Qed.

Lemma sort_sorted (l : list A) :
  StronglySorted (fun a b => (key a <= key b)%Z) (JS.sort by_key l).
Proof.
  induction l as [|x l IH]; simpl; [constructor|now apply insert_sorted].
Qed.

Lemma insert_stable (k : Z) (x : A) (l : list A) :
  filter (fun a => (key a =? k)%Z) (JS.insert by_key x l)
  = filter (fun a => (key a =? k)%Z) (x :: l).
Proof.
  induction l as [|y l IH]; [reflexivity|].
  simpl JS.insert. unfold by_key at 1.
  destruct (Z.compare_spec (key x - key y) 0) as [E|E|E]; try reflexivity.
  simpl in *. rewrite IH.
  destruct (Z.eqb_spec (key x) k) as [Ex|Ex], (Z.eqb_spec (key y) k) as [Ey|Ey];
    try reflexivity.
  lia.
Qed.

Lemma sort_stable (k : Z) (l : list A) :
  filter (fun a => (key a =? k)%Z) (JS.sort by_key l)
  = filter (fun a => (key a =? k)%Z) l.
Proof.
  induction l as [|x l IH]; [reflexivity|].
  simpl JS.sort. rewrite insert_stable. simpl. now rewrite IH.
Qed.
End SortByKey.

(** X1. What [sortTodoList] returns is the stable ascending ordering of its
    argument by priority: a permutation of the argument, with the
    priorities ([sortingID] of the item's cluster) in ascending order, and
    with the items of every priority in the order they had. *)
Theorem sortTodoList_stable_ascending (this : t) (todo q : list ItemRef) :
  sortTodoList this todo = JS.Ok q ->
  Permutation q todo
  /\ StronglySorted (fun a b => (priority this a <= priority this b)%Z) q
  /\ forall k : Z,
       filter (fun i => (priority this i =? k)%Z) q
       = filter (fun i => (priority this i =? k)%Z) todo.
Proof.
  intros Hs. split; [now apply sortTodoList_perm with this|].
  unfold sortTodoList in Hs.
  destruct (length todo <? 2)%nat eqn:Hlen.
  - injection Hs as <-. split; [|reflexivity].
    apply Nat.ltb_lt in Hlen.
    destruct todo as [|a [|b rest]]; simpl in Hlen; try lia;
      repeat constructor.
  - destruct (forallb _ todo); [|discriminate]. injection Hs as <-.
    split; [apply (sort_sorted (priority this))|].
    intros k. apply (sort_stable (priority this)).
Qed.

(** The five items in a mixed order: the cluster of [0] and [1] comes
    first, and [4; 3; 2] keep their order. *)
Lemma sortTodoList_stable_ascending_witness :
  Permutation [0; 1; 4; 3; 2]%nat [4; 0; 3; 1; 2]%nat
  /\ StronglySorted
       (fun a b => (priority two_cluster_scheduler a
                    <= priority two_cluster_scheduler b)%Z)
       [0; 1; 4; 3; 2]%nat
  /\ forall k : Z,
       filter (fun i => (priority two_cluster_scheduler i =? k)%Z)
              [0; 1; 4; 3; 2]%nat
       = filter (fun i => (priority two_cluster_scheduler i =? k)%Z)
                [4; 0; 3; 1; 2]%nat.
Proof.
  apply (@sortTodoList_stable_ascending two_cluster_scheduler
           [4; 0; 3; 1; 2]%nat [0; 1; 4; 3; 2]%nat).
  vm_compute. reflexivity.
Defined.

(* ================================================================== *)
(** ** updateToDo: what a call hands back *)
(* ================================================================== *)

(** An array that [updateToDo] returns is empty or a permutation of the
    argument. *)
Lemma updateToDo_perm_or_empty (this : t) (h : Heap) (rnd : nat -> Q)
  (todo : list ItemRef) (cur : option ItemRef) (this' : t)
  (q' : list ItemRef) :
  updateToDo this h rnd todo cur = (this', JS.Ok q') ->
  q' = [] \/ Permutation q' todo.
Proof.
  intros Hcall.
  destruct (clusters this) as [|c0 cs] eqn:Ecl.
  - right. unfold updateToDo in Hcall. rewrite Ecl in Hcall.
    injection Hcall as _ Hs. now apply sortTodoList_perm with this.
  - destruct cur as [cur|].
    + assert (Hcl : clusters this <> []) by (rewrite Ecl; discriminate).
      destruct (updateToDo_steady_inv _ _ _ _ _ Hcl Hcall)
        as (todo2 & finished & Hperm & _ & _ & ->).
      destruct finished; [now left|right].
      now rewrite avoidRepeat_perm.
    + right. unfold updateToDo in Hcall. rewrite Ecl in Hcall.
      injection Hcall as _ Hs. now apply sortTodoList_perm with this.
Qed.

(** X2. Whatever the call (first call of a session or not), an array that
    [updateToDo] returns is the empty array or a rearrangement of its
    argument: no item is dropped, added or repeated, and the items keep
    their multiplicities. *)
Theorem updateToDo_rearranges (this : t) (h : Heap) (rnd : nat -> Q)
  (todo : list ItemRef) (cur : option ItemRef) (this' : t)
  (q' : list ItemRef) :
  updateToDo this h rnd todo cur = (this', JS.Ok q') ->
  q' = []
  \/ (Permutation q' todo
      /\ forall item, count_occ Nat.eq_dec q' item
                      = count_occ Nat.eq_dec todo item).
Proof.
  intros Hcall.
  destruct (@updateToDo_perm_or_empty _ _ _ _ _ _ _ Hcall) as [E|P];
    [now left|right].
  split; [exact P|]. intros item. now apply Permutation_count_occ.
Qed.

Lemma updateToDo_rearranges_witness :
  [2; 0; 3]%nat = []
  \/ (Permutation [2; 0; 3]%nat [2; 3; 0]%nat
      /\ forall item, count_occ Nat.eq_dec [2; 0; 3]%nat item
                      = count_occ Nat.eq_dec [2; 3; 0]%nat item).
Proof.
  eapply (@updateToDo_rearranges two_cluster_scheduler (first_answer_of 0)
            alternating [2; 3; 0]%nat (Some 0%nat)).
  vm_compute. reflexivity.
Defined.

(** In the session of [first_answer_of], a call on the whole list. *)
Lemma updateToDo_returns_witness :
  exists q',
    snd (updateToDo two_cluster_scheduler (first_answer_of 0) alternating
                    five_items (Some 0%nat))
    = JS.Ok q'.
Proof.
  apply updateToDo_returns.
  - discriminate.
  - discriminate.
  - discriminate.
  - reflexivity.
  - reflexivity.
Defined.

(** X4. A steady-state call on the empty array never returns: whatever the
    current item and the state of the scheduler, it throws. *)
Theorem updateToDo_empty_array_throws (this : t) (h : Heap) (rnd : nat -> Q)
  (cur : ItemRef) :
  clusters this <> [] ->
  snd (updateToDo this h rnd [] (Some cur)) = JS.Throw JS.TypeError.
Proof.
  intros Hcl. unfold updateToDo.
  destruct (clusters this) as [|c0 cs] eqn:Ecl; [contradiction|].
  destruct (getClusterOfItem _ cur) as [cc|]; [|reflexivity].
  simpl snd.
  destruct (Cluster.allWordsSeenOnce h cc); reflexivity.
Qed.

Lemma updateToDo_empty_array_throws_witness :
  snd (updateToDo last_round_scheduler (answered 7) alternating []
                  (Some 1%nat))
  = JS.Throw JS.TypeError.
Proof.
  apply updateToDo_empty_array_throws. discriminate.
Defined.

(* ================================================================== *)
(** ** The clusters over a session *)
(* ================================================================== *)

(** The clusters after a call: as before, or with the pass of the current
    item's cluster registered, or with that and the rotation. *)
Lemma step_clusters (this : t) (h : Heap) (rnd : nat -> Q)
  (todo : list ItemRef) (cur : option ItemRef) :
  let after := clusters (step this (h, rnd, todo, cur)) in
  after = clusters this
  \/ exists item,
       cur = Some item
       /\ clusters this <> []
       /\ (after = update_cluster_of h item (clusters this)
           \/ after
              = map (Cluster.increaseSortingID (length (clusters this)))
                    (update_cluster_of h item (clusters this))).
Proof.
  unfold step, updateToDo.
  destruct (clusters this) as [|c0 cs] eqn:Ecl; [left; simpl; exact Ecl|].
  destruct cur as [cur|]; [|left; simpl; exact Ecl].
  set (this1 := if JS.gt _ _ then advanceRound this else this).
  assert (E1 : clusters this1 = c0 :: cs)
    by (unfold this1; destruct (JS.gt _ _); exact Ecl).
  destruct (getClusterOfItem this1 cur) as [cc|]; [|left; exact E1].
  right. exists cur. split; [reflexivity|]. split; [discriminate|].
  simpl fst. destruct (JS.strict_eq _ _); simpl clusters; rewrite E1.
  - right. f_equal. f_equal.
    rewrite <- (length_map Cluster.sortingID),
      update_cluster_of_sortingIDs. apply length_map.
  - now left.
Qed.

Lemma update_cluster_of_members (h : Heap) (cur : ItemRef)
  (cs : list Cluster.t) :
  map Cluster.ID (update_cluster_of h cur cs) = map Cluster.ID cs
  /\ map Cluster.itemPairs (update_cluster_of h cur cs)
     = map Cluster.itemPairs cs.
Proof.
  induction cs as [|c cs [IH1 IH2]]; simpl; [now split|].
  destruct (includes (Cluster.itemPairs c) cur); simpl.
  - unfold Cluster.getTimesSeen.
    now destruct (Cluster.allWordsSeenOnce h c).
  - now rewrite IH1, IH2.
Qed.

Lemma rotation_members (n : nat) (cs : list Cluster.t) :
  map Cluster.ID (map (Cluster.increaseSortingID n) cs) = map Cluster.ID cs
  /\ map Cluster.itemPairs (map (Cluster.increaseSortingID n) cs)
     = map Cluster.itemPairs cs
  /\ map Cluster.timesSeen (map (Cluster.increaseSortingID n) cs)
     = map Cluster.timesSeen cs.
Proof.
  rewrite !map_map. simpl. auto.
Qed.

Lemma step_keeps_length (this : t) (c : call) :
  length (clusters (step this c)) = length (clusters this).
Proof.
  destruct c as [[[h rnd] todo] cur].
  assert (Hu : forall item,
             length (update_cluster_of h item (clusters this))
             = length (clusters this)).
  { intros item. rewrite <- (length_map Cluster.sortingID),
      update_cluster_of_sortingIDs. apply length_map. }
  destruct (step_clusters this h rnd todo cur)
    as [->|(item & _ & _ & [-> | ->])]; [reflexivity|apply Hu|].
  rewrite length_map. apply Hu.
Qed.

Lemma run_keeps_members_length (calls : list call) (this : t) :
  length (clusters (run this calls)) = length (clusters this).
Proof.
  revert this. induction calls as [|c calls IH]; intros this; [reflexivity|].
  simpl. rewrite IH. apply step_keeps_length.
Qed.

(** X5. The clusters of a scheduler are fixed: over every sequence of
    calls, throwing or not, their number, their ids and their members stay
    what they were, and so does the round schedule. *)
Theorem run_keeps_members (calls : list call) (this : t) :
  map Cluster.ID (clusters (run this calls)) = map Cluster.ID (clusters this)
  /\ map Cluster.itemPairs (clusters (run this calls))
     = map Cluster.itemPairs (clusters this)
  /\ length (clusters (run this calls)) = length (clusters this)
  /\ rounds (run this calls) = rounds this.
Proof.
  revert this. induction calls as [|c calls IH]; intros this; [now simpl|].
  simpl. destruct (IH (step this c)) as (H1 & H2 & H3 & H4).
  rewrite H1, H2, H3, H4. clear IH H1 H2 H3 H4.
  assert (Hr : rounds (step this c) = rounds this)
    by (destruct (step_progress this c) as [E|E]; now inversion E).
  assert (Hm : map Cluster.ID (clusters (step this c))
               = map Cluster.ID (clusters this)
               /\ map Cluster.itemPairs (clusters (step this c))
                  = map Cluster.itemPairs (clusters this)).
  { destruct c as [[[h rnd] todo] cur].
    destruct (step_clusters this h rnd todo cur)
      as [->|(item & _ & _ & [-> | ->])]; [now split| |].
    - apply update_cluster_of_members.
    - destruct (rotation_members (length (clusters this))
                  (update_cluster_of h item (clusters this)))
        as (-> & -> & _).
      apply update_cluster_of_members. }
  destruct Hm as [Hid Hmem]. repeat split; try assumption.
  rewrite <- (length_map Cluster.ID), Hid. apply length_map.
Qed.

Section Forall2Facts.
Context {A : Type}.

Lemma Forall2_refl_on (R : A -> A -> Prop) (l : list A) :
  (forall a, R a a) -> Forall2 R l l.
Proof. intros HR. induction l; constructor; auto. Qed.

Lemma Forall2_chain (R S T : A -> A -> Prop) (l1 l2 l3 : list A) :
  (forall a b c, R a b -> S b c -> T a c) ->
  Forall2 R l1 l2 -> Forall2 S l2 l3 -> Forall2 T l1 l3.
Proof.
  intros HT H12. revert l3.
  induction H12 as [|a b l1 l2 Hab _ IH]; intros l3 H23;
    inversion H23; subst; constructor; eauto.
Qed.
End Forall2Facts.

(** One registration: the counter of one cluster goes up by one, or
    nothing changes. *)
Lemma update_cluster_of_timesSeen (h : Heap) (cur : ItemRef)
  (cs : list Cluster.t) :
  Forall2 (fun c c' => (Cluster.timesSeen c <= Cluster.timesSeen c'
                        <= Cluster.timesSeen c + 1)%Z)
          cs (update_cluster_of h cur cs).
Proof.
  induction cs as [|c cs IH]; simpl; [constructor|].
  destruct (includes (Cluster.itemPairs c) cur).
  - constructor.
    + unfold Cluster.getTimesSeen.
      destruct (Cluster.allWordsSeenOnce h c); simpl; lia.
    + apply Forall2_refl_on. intros a. lia.
  - constructor; [lia|exact IH].
Qed.

Lemma step_timesSeen (this : t) (c : call) :
  Forall2 (fun c c' => (Cluster.timesSeen c <= Cluster.timesSeen c'
                        <= Cluster.timesSeen c + 1)%Z)
          (clusters this) (clusters (step this c)).
Proof.
  destruct c as [[[h rnd] todo] cur].
  destruct (step_clusters this h rnd todo cur)
    as [->|(item & _ & _ & [-> | ->])].
  - apply Forall2_refl_on. intros a. lia.
  - apply update_cluster_of_timesSeen.
  - pose proof (update_cluster_of_timesSeen h item (clusters this)) as H.
    set (n := length (clusters this)). clearbody n.
    induction H as [|a b l1 l2 Hab _ IH]; simpl; [constructor|].
    constructor; [exact Hab|exact IH].
Qed.

(** X6. The pass counter [timesSeen] of a cluster never goes down, and a
    call raises it by one at most: after [n] calls every cluster's counter
    lies between its old value and its old value plus [n]. *)
Theorem run_timesSeen_bounds (calls : list call) (this : t) :
  Forall2 (fun c c' =>
             (Cluster.timesSeen c <= Cluster.timesSeen c'
              <= Cluster.timesSeen c + Z.of_nat (length calls))%Z)
          (clusters this) (clusters (run this calls)).
Proof.
  revert this. induction calls as [|c calls IH]; intros this.
  - simpl. apply Forall2_refl_on. intros a. lia.
  - simpl run. eapply Forall2_chain;
      [|apply (step_timesSeen this c)|apply (IH (step this c))].
    intros a b d Hab Hbd. simpl in Hab, Hbd |- *.
    rewrite Zpos_P_of_succ_nat. lia.
Qed.

Lemma rem_succ_injective (n a b : Z) :
  (0 <= a < n)%Z -> (0 <= b < n)%Z ->
  Z.rem (a + 1) n = Z.rem (b + 1) n -> a = b.
Proof.
  intros Ha Hb.
  rewrite !Z.rem_mod_nonneg by lia.
  destruct (Z.eq_dec (a + 1) n) as [Ea|Ea], (Z.eq_dec (b + 1) n) as [Eb|Eb].
  - lia.
  - rewrite Ea, Z.mod_same, Z.mod_small by lia. lia.
  - rewrite Eb, Z.mod_same, Z.mod_small by lia. lia.
  - rewrite !Z.mod_small by lia. lia.
Qed.

Lemma in_domain_bounds (cs : list Cluster.t) (c : Cluster.t) :
  sortingID_in_domain cs = true -> In c cs ->
  (0 <= Cluster.sortingID c < Z.of_nat (length cs))%Z.
Proof.
  unfold sortingID_in_domain. rewrite forallb_forall. intros H Hc.
  specialize (H c Hc). apply andb_true_iff in H as [H1 H2].
  apply Z.leb_le in H1. apply Z.ltb_lt in H2. lia.
Qed.

Lemma rotation_keeps_distinct (cs : list Cluster.t) :
  sortingID_in_domain cs = true ->
  NoDup (map Cluster.sortingID cs) ->
  NoDup (map Cluster.sortingID
             (map (Cluster.increaseSortingID (length cs)) cs)).
Proof.
  intros Hdom Hnd. rewrite map_map. simpl.
  rewrite <- (map_map Cluster.sortingID
                      (fun s => Z.rem (s + 1) (Z.of_nat (length cs)))).
  apply NoDup_map_NoDup_ForallPairs; [|exact Hnd].
  intros a b Ha Hb. apply in_map_iff in Ha as (ca & <- & Hca).
  apply in_map_iff in Hb as (cb & <- & Hcb).
  apply rem_succ_injective; now apply in_domain_bounds.
Qed.

Lemma step_keeps_distinct (this : t) (c : call) :
  sortingID_in_domain (clusters this) = true ->
  NoDup (map Cluster.sortingID (clusters this)) ->
  NoDup (map Cluster.sortingID (clusters (step this c))).
Proof.
  intros Hdom Hnd. destruct c as [[[h rnd] todo] cur].
  destruct (step_clusters this h rnd todo cur)
    as [->|(item & _ & _ & [-> | ->])]; [exact Hnd| |].
  - now rewrite update_cluster_of_sortingIDs.
  - replace (length (clusters this))
      with (length (update_cluster_of h item (clusters this))).
    + apply rotation_keeps_distinct.
      * rewrite (sortingID_in_domain_ext
                   (update_cluster_of h item (clusters this)) (clusters this)
                   (update_cluster_of_sortingIDs h item (clusters this))).
        exact Hdom.
      * now rewrite update_cluster_of_sortingIDs.
    + rewrite <- (length_map Cluster.sortingID),
        update_cluster_of_sortingIDs. apply length_map.
Qed.

(** X7. Priorities that are distinct and within [[0, numClusters)] stay so:
    over every sequence of calls the rotation moves all clusters together,
    so no two clusters ever get the same [sortingID]. *)
Theorem run_keeps_priorities_distinct (calls : list call) (this : t) :
  sortingID_in_domain (clusters this) = true ->
  NoDup (map Cluster.sortingID (clusters this)) ->
  sortingID_in_domain (clusters (run this calls)) = true
  /\ NoDup (map Cluster.sortingID (clusters (run this calls))).
Proof.
  revert this. induction calls as [|c calls IH]; intros this Hdom Hnd;
    [now split|].
  simpl. apply IH.
  - now apply step_keeps_domain.
  - now apply step_keeps_distinct.
Qed.

(** The scheduler of two clusters, as constructed, after one call. *)
Lemma run_keeps_priorities_distinct_witness :
  sortingID_in_domain
    (clusters (run two_cluster_scheduler
                   [(first_answer_of 0, alternating, five_items,
                     Some 0%nat)]))
  = true
  /\ NoDup (map Cluster.sortingID
                (clusters (run two_cluster_scheduler
                               [(first_answer_of 0, alternating, five_items,
                                 Some 0%nat)]))).
Proof.
  apply run_keeps_priorities_distinct.
  - reflexivity.
  - simpl. repeat constructor; simpl; intuition discriminate.
Defined.

(* ================================================================== *)
(** ** RandomAlgorithm: the whole schedule *)
(* ================================================================== *)

Lemma rem_is_zero_nat (n L : nat) :
  RandomAlgorithm.rem_is_zero (Z.of_nat n) L
  = negb (Nat.eqb L 0) && Nat.eqb (n mod L) 0.
Proof.
  destruct L as [|l]; [reflexivity|]. unfold RandomAlgorithm.rem_is_zero.
  rewrite Z.rem_mod_nonneg by lia. rewrite <- Nat2Z.inj_mod.
  change (negb (Nat.eqb (S l) 0)) with true. rewrite andb_true_l.
  destruct (Nat.eqb_spec (n mod S l) 0) as [E|E].
  - rewrite E. reflexivity.
  - apply Z.eqb_neq. lia.
Qed.

(** X8. The plain scheduler for any length [L] of the array it was
    constructed on: call number [n + 1] returns the empty array when
    [n = 7 L]; otherwise it returns its argument, shuffled when [n = 0] or
    ([L > 0] and) [n] is a multiple of [L].  So with non-empty arguments
    exactly one call returns the empty array, and the calls after it return
    arrays again. *)
Theorem plain_scheduler_schedule (todo0 : list ItemRef)
  (calls : list ((nat -> Q) * list ItemRef)) (n : nat) (rnd : nat -> Q)
  (todo : list ItemRef) :
  nth_error calls n = Some (rnd, todo) ->
  let out :=
    if Nat.eqb n (7 * length todo0) then []
    else if Nat.eqb n 0
            || negb (Nat.eqb (length todo0) 0)
               && Nat.eqb (n mod length todo0) 0
         then SelectionAlgorithm.shuffleArray rnd todo
         else todo in
  nth_error (RandomAlgorithm.run (RandomAlgorithm.new todo0) calls) n
  = Some out
  /\ (todo <> [] -> (out = [] <-> n = (7 * length todo0)%nat)).
Proof.
  intros Hn out. split.
  - rewrite (run_nth _ _ _ Hn). unfold RandomAlgorithm.new.
    cbn [RandomAlgorithm.todoLength RandomAlgorithm.iteration
         RandomAlgorithm.maxIterations].
    unfold RandomAlgorithm.updateToDo.
    cbn [RandomAlgorithm.todoLength RandomAlgorithm.iteration
         RandomAlgorithm.maxIterations snd].
    rewrite Z.add_0_l, rem_is_zero_nat.
    replace (Z.of_nat n + 1 - 1 =? 7 * Z.of_nat (length todo0))%Z
      with (Nat.eqb n (7 * length todo0)).
    + replace (Z.of_nat n =? 0)%Z with (Nat.eqb n 0); [reflexivity|].
      destruct (Nat.eqb_spec n 0) as [E|E]; symmetry;
        [apply Z.eqb_eq|apply Z.eqb_neq]; lia.
    + destruct (Nat.eqb_spec n (7 * length todo0)) as [E|E]; symmetry;
        [apply Z.eqb_eq|apply Z.eqb_neq]; lia.
  - intros Htodo. unfold out.
    destruct (Nat.eqb_spec n (7 * length todo0)) as [E|E]; [tauto|].
    split; [|contradiction].
    destruct (_ || _); intros Eout; [|contradiction].
    exfalso. apply Htodo. apply Permutation_nil. rewrite <- Eout.
    apply shuffleArray_perm.
Qed.

(** Call 23 of the session on three items returns its argument again. *)
Lemma plain_scheduler_schedule_witness :
  nth_error (RandomAlgorithm.run (RandomAlgorithm.new three_items)
               (repeat (alternating, three_items) 23)) 22
  = Some three_items
  /\ (three_items <> [] ->
      (three_items = [] <-> 22%nat = (7 * length three_items)%nat)).
Proof.
  apply (@plain_scheduler_schedule three_items
           (repeat (alternating, three_items) 23) 22 alternating three_items).
  reflexivity.
Defined.

(* ================================================================== *)
(** ** The cluster-assignment strategies: sizes and members *)
(* ================================================================== *)

(** Groups taken by distinct labels never hold more elements than the
    list, whether every element has one of the labels or not. *)
Lemma groups_length {A : Type} (lab : A -> option nat) (D : list nat) :
  NoDup D ->
  forall items : list A,
    (length
       (concat
          (map (fun l =>
                  filter (fun a => match lab a with
                                   | Some l' => Nat.eqb l' l
                                   | None => false
                                   end) items)
               D))
     <= length items)%nat.
Proof.
  induction 1 as [|l D Hl Hnd IH]; intros items; simpl; [lia|].
  set (p := fun a => match lab a with
                     | Some l' => Nat.eqb l' l
                     | None => false
                     end).
  rewrite length_app.
  rewrite <- (Permutation_length (filter_split_perm p items)).
  rewrite length_app. apply Nat.add_le_mono_l.
  specialize (IH (filter (fun a => negb (p a)) items)).
  replace (map _ D)
    with (map (fun l0 =>
                 filter (fun a => match lab a with
                                  | Some l' => Nat.eqb l' l0
                                  | None => false
                                  end)
                        (filter (fun a => negb (p a)) items)) D);
    [exact IH|].
  apply map_ext_in. intros l' Hl'. apply filter_under.
  intros a. unfold p. destruct (lab a) as [la|]; [|discriminate].
  intros E. apply Nat.eqb_eq in E. subst la.
  apply Nat.eqb_neq. intros ->. contradiction.
Qed.

Lemma fill_sizes (lens : list nat) :
  forall (i total : nat) (shuffled : list ItemRef),
    (total + list_sum lens <= length shuffled)%nat ->
    map (fun c => length (Cluster.itemPairs c))
        (RandomClusteringAlgorithm.fill i total lens shuffled)
    = lens.
Proof.
  induction lens as [|n lens IH]; intros i total shuffled Hsum; simpl in *;
    [reflexivity|].
  rewrite IH by lia. f_equal. unfold JS.slice.
  rewrite length_firstn, length_skipn. lia.
Qed.

(** X9. The size-matched random strategy returns clusters of exactly the
    sizes of the vector-based clusters, in the same order, whatever labels
    [kmeans] returns. *)
Theorem random_clusters_size_matched
  (kmeans : KMeansClusteringAlgorithm.kmeans_t) (fuel : nat) (h : Heap)
  (rnd : nat -> Q) (itemPairs : list ItemRef)
  (byVector byRandom : list Cluster.t) :
  KMeansClusteringAlgorithm.computeClusters kmeans fuel h itemPairs
  = Some byVector ->
  RandomClusteringAlgorithm.computeClusters kmeans fuel h rnd itemPairs
  = Some byRandom ->
  map (fun c => length (Cluster.itemPairs c)) byRandom
  = map (fun c => length (Cluster.itemPairs c)) byVector.
Proof.
  unfold KMeansClusteringAlgorithm.computeClusters,
         RandomClusteringAlgorithm.computeClusters.
  change RandomClusteringAlgorithm.clusterAmount
    with KMeansClusteringAlgorithm.clusterAmount.
  destruct (Seeds.cents _ _ _) as [cents|]; [|discriminate].
  set (labels := kmeans _ _ cents).
  intros [= <-] [= <-]. apply fill_sizes. simpl.
  rewrite <- (map_map Cluster.itemPairs (@length ItemRef)), <- length_concat.
  rewrite clusters_of_indexes_members.
  rewrite (Permutation_length (shuffleArray_perm rnd itemPairs)).
  destruct (distinct_spec labels) as [Hnd _].
  apply (groups_length
           (fun item => nth_error labels (index (h item))) Hnd itemPairs).
Qed.

Lemma random_clusters_size_matched_witness :
  map (fun c => length (Cluster.itemPairs c))
      [Cluster.new 0 [0; 2]%nat; Cluster.new 1 [4%nat];
       Cluster.new 2 [1%nat]; Cluster.new 3 [3%nat]]
  = map (fun c => length (Cluster.itemPairs c))
        [Cluster.new 0 [0; 1]%nat; Cluster.new 1 [2%nat];
         Cluster.new 2 [3%nat]; Cluster.new 3 [4%nat]].
Proof.
  apply (@random_clusters_size_matched nearest_centroid 5 on_a_line
           alternating five_items).
  - vm_compute. reflexivity.
  - vm_compute. reflexivity.
Defined.

(** X10. The vector-based clusters, for any label array as long as the
    item list whose items carry their positions as [index]: the cluster of
    a label holds exactly the items with that label, in the order of the
    item list, and no cluster is empty. *)
Theorem clusters_of_indexes_by_label (h : Heap) (itemPairs : list ItemRef)
  (clustersIndexes : list nat) (c : Cluster.t) :
  indexes_aligned h itemPairs ->
  length clustersIndexes = length itemPairs ->
  In c (KMeansClusteringAlgorithm.clusters_of_indexes
          h itemPairs clustersIndexes) ->
  Cluster.itemPairs c
  = filter (fun item =>
              match nth_error clustersIndexes (index (h item)) with
              | Some l => Nat.eqb l (Cluster.ID c)
              | None => false
              end) itemPairs
  /\ Cluster.itemPairs c <> []
  /\ In (Cluster.ID c) clustersIndexes.
Proof.
  intros Hal Hlen Hc.
  unfold KMeansClusteringAlgorithm.clusters_of_indexes in Hc.
  apply in_map_iff in Hc as (l & <- & Hl).
  apply (proj2 (distinct_spec clustersIndexes)) in Hl.
  simpl. split; [reflexivity|]. split; [|exact Hl].
  apply In_nth_error in Hl as [j Hj].
  assert (Hjlt : (j < length itemPairs)%nat)
    by (rewrite <- Hlen; apply nth_error_Some; congruence).
  destruct (nth_error itemPairs j) as [item|] eqn:Eitem;
    [|apply nth_error_None in Eitem; lia].
  assert (Hidx : index (h item) = j).
  { unfold indexes_aligned in Hal.
    pose proof (map_nth_error (fun i => index (h i)) j itemPairs Eitem) as Hm.
    rewrite Hal, nth_error_seq in Hm.
    destruct (Nat.ltb_spec j (length itemPairs)); [|lia].
    simpl in Hm. congruence. }
  assert (Hin : In item (filter (KMeansClusteringAlgorithm.has_label
                                   h clustersIndexes l) itemPairs)).
  { apply filter_In. split; [eapply nth_error_In, Eitem|].
    unfold KMeansClusteringAlgorithm.has_label.
    rewrite Hidx, Hj. apply Nat.eqb_refl. }
  intros E. rewrite E in Hin. contradiction.
Qed.

Lemma clusters_of_indexes_by_label_witness :
  Cluster.itemPairs (Cluster.new 0 [0; 1]%nat)
  = filter (fun item =>
              match nth_error [0; 0; 1; 2; 3]%nat (index (on_a_line item)) with
              | Some l => Nat.eqb l (Cluster.ID (Cluster.new 0 [0; 1]%nat))
              | None => false
              end) five_items
  /\ Cluster.itemPairs (Cluster.new 0 [0; 1]%nat) <> []
  /\ In (Cluster.ID (Cluster.new 0 [0; 1]%nat)) [0; 0; 1; 2; 3]%nat.
Proof.
  apply (@clusters_of_indexes_by_label on_a_line five_items
           [0; 0; 1; 2; 3]%nat (Cluster.new 0 [0; 1]%nat)).
  - reflexivity.
  - reflexivity.
  - left. reflexivity.
Defined.

(* ================================================================== *)
(** ** The item selectors *)
(* ================================================================== *)

(** The caller's array after a throw holds what it held, but for the
    empty array. *)
Lemma todo_at_throw_cases (algorithm algorithm' : t) (h : Heap)
  (todo : list ItemRef) (currentItemPair : option ItemRef) :
  (exists q : list ItemRef,
     ItemSelect.todo_at_throw algorithm algorithm' h todo currentItemPair
     = map Some q
     /\ Permutation q todo)
  \/ (todo = []
      /\ ItemSelect.todo_at_throw algorithm algorithm' h todo currentItemPair
         = [None]).
Proof.
  assert (Hsame : exists q : list ItemRef,
             map Some todo = map (@Some ItemRef) q /\ Permutation q todo)
    by (exists todo; split; [reflexivity|apply Permutation_refl]).
  unfold ItemSelect.todo_at_throw.
  destruct (clusters algorithm) as [|c0 cs]; [now left|].
  destruct currentItemPair as [cur|]; [|now left].
  destruct (getClusterOfItem algorithm cur) as [currentCluster|]; [|now left].
  destruct (Cluster.allWordsSeenOnce h currentCluster); [now left|].
  destruct (sortTodoList algorithm' todo) as [[|first rest]|e] eqn:Esort;
    [| |now left].
  - right. split; [|reflexivity].
    apply sortTodoList_perm in Esort. now apply Permutation_nil.
  - left. eexists. split; [reflexivity|].
    eapply Permutation_trans; [apply avoidRepeat_perm|].
    eapply sortTodoList_perm, Esort.
Qed.

Lemma update_outcome {GameStatus : Type} (Finished : GameStatus)
  (h : Heap) (rnd : nat -> Q) (this : ItemSelect.game GameStatus ItemRef)
  (algorithm : t) :
  selector_outcome Finished h this
                   (ItemSelect.update Finished h rnd this algorithm).
Proof.
  unfold ItemSelect.update, selector_outcome.
  destruct (updateToDo algorithm h rnd (ItemSelect.todo this)
                       (ItemSelect.current this)) as [alg' ret] eqn:Ecall.
  destruct ret as [[|first rest]|e]; simpl;
    repeat split; try discriminate.
  - destruct (@updateToDo_perm_or_empty _ _ _ _ _ _ _ Ecall) as [E|P];
      [discriminate|exact P].
  - destruct (todo_at_throw_cases algorithm alg' h (ItemSelect.todo this)
                                  (ItemSelect.current this))
      as [Hq|[Hempty Hheld]].
    + left. exact Hq.
    + right. repeat split; [exact Hempty|exact Hheld|].
      unfold ItemSelect.alwaysItemRepeat. simpl. now rewrite Hheld.
Qed.

Lemma select_outcome {GameStatus : Type} (Finished : GameStatus)
  (construct : list ItemRef -> option ItemSelect.constructed)
  (h : Heap) (rnd : nat -> Q) (this : ItemSelect.game GameStatus ItemRef)
  (o : ItemSelect.outcome GameStatus) :
  ItemSelect.select Finished construct h rnd this = Some o ->
  selector_outcome Finished h this o.
Proof.
  unfold ItemSelect.select.
  destruct (ItemSelect.selectionAlgorithm this) as [algorithm|] eqn:Ealg.
  - intros [= <-]. apply update_outcome.
  - destruct (construct (ItemSelect.itemPairs this)) as [[algorithm|]|];
      [| |discriminate]; intros [= <-].
    + apply update_outcome.
    + simpl. repeat split. exact Ealg.
Qed.

(** X11. What a caller of [kmeansClusterItemSelect] or
    [randomClusterItemSelect] finds afterwards, whether the selector
    returned or threw: the outcome described by [selector_outcome].  The
    status is set to [Finished] by the calls that return with an empty todo
    list, and left alone by all others.  An exception leaves the items of
    the todo list alone too, though not their order; on an empty todo list
    it can leave [[undefined]] behind, and [alwaysItemRepeat] then answers
    [true]. *)
Theorem item_selectors_outcome {GameStatus : Type} (Finished : GameStatus)
  (kmeans : KMeansClusteringAlgorithm.kmeans_t)
  (throws : list (Z * Z) -> nat -> list (option (Z * Z)) -> bool)
  (fuel : nat) (h : Heap) (shuffle rnd : nat -> Q)
  (this : ItemSelect.game GameStatus ItemRef)
  (o : ItemSelect.outcome GameStatus) :
  ItemSelect.kmeansClusterItemSelect Finished kmeans throws fuel h rnd this
  = Some o
  \/ ItemSelect.randomClusterItemSelect Finished kmeans throws fuel h shuffle
                                        rnd this
     = Some o ->
  selector_outcome Finished h this o.
Proof.
  intros [H|H]; eapply select_outcome; exact H.
Qed.

(** Three calls on the five items on a line.  The first call of a game:
    the todo list is sorted by cluster and the index of its first item
    returned.  A call in the session on an empty todo list: [updateToDo]
    throws and the todo list is [[undefined]].  The first call of a game
    without items: [kmeans] throws and the game is as it was. *)
Lemma item_selectors_outcome_witness :
  (exists this',
     ItemSelect.kmeansClusterItemSelect true nearest_centroid
       throws_on_no_data 5 on_a_line alternating
       (fresh_game [4; 0; 3; 1; 2]%nat)
     = Some (ItemSelect.Returns this' 0%nat)
     /\ ItemSelect.todo this' = [0; 1; 2; 3; 4]%nat
     /\ selector_outcome true on_a_line (fresh_game [4; 0; 3; 1; 2]%nat)
                         (ItemSelect.Returns this' 0%nat))
  /\ (exists this',
        ItemSelect.kmeansClusterItemSelect true nearest_centroid
          throws_on_no_data 5 (first_answer_of 0) alternating
          (running_game [] 0%nat)
        = Some (ItemSelect.Throws
                  this' (ItemSelect.FromUpdateToDo JS.TypeError))
        /\ ItemSelect.todo this' = [None]
        /\ ItemSelect.alwaysItemRepeat this' = true
        /\ selector_outcome true (first_answer_of 0) (running_game [] 0%nat)
             (ItemSelect.Throws
                this' (ItemSelect.FromUpdateToDo JS.TypeError)))
  /\ (exists this',
        ItemSelect.randomClusterItemSelect true nearest_centroid
          throws_on_no_data 5 on_a_line alternating alternating
          (ItemSelect.mk None [] [] None false)
        = Some (ItemSelect.Throws this' ItemSelect.FromKmeans)
        /\ ItemSelect.selectionAlgorithm this' = None
        /\ selector_outcome true on_a_line
             (ItemSelect.mk None [] [] None false)
             (ItemSelect.Throws this' ItemSelect.FromKmeans)).
Proof.
  split; [|split].
  - eexists. split; [vm_compute; reflexivity|]. split; [reflexivity|].
    eapply (@item_selectors_outcome bool true nearest_centroid
              throws_on_no_data 5 on_a_line alternating alternating).
    left. vm_compute. reflexivity.
  - eexists. split; [vm_compute; reflexivity|].
    split; [reflexivity|]. split; [reflexivity|].
    eapply (@item_selectors_outcome bool true nearest_centroid
              throws_on_no_data 5 (first_answer_of 0) alternating
              alternating).
    left. vm_compute. reflexivity.
  - eexists. split; [vm_compute; reflexivity|]. split; [reflexivity|].
    eapply (@item_selectors_outcome bool true nearest_centroid
              throws_on_no_data 5 on_a_line alternating alternating).
    right. vm_compute. reflexivity.
Defined.

Lemma partition_covers (cs : list Cluster.t) (items : list ItemRef)
  (item : ItemRef) :
  Permutation (concat (map Cluster.itemPairs cs)) items ->
  In item items ->
  in_some_cluster cs item = true.
Proof.
  intros Hperm Hin.
  apply (Permutation_in item (Permutation_sym Hperm)) in Hin.
  apply in_concat in Hin as (members & Hm & Hitem).
  apply in_map_iff in Hm as (c & <- & Hc).
  unfold in_some_cluster. apply existsb_exists. exists c.
  split; [exact Hc|]. unfold includes. apply existsb_exists.
  exists item. split; [exact Hitem|]. apply Nat.eqb_refl.
Qed.

Lemma aligned_in_range (h : Heap) (itemPairs : list ItemRef) :
  indexes_aligned h itemPairs ->
  Forall (fun item => (index (h item) < length itemPairs)%nat) itemPairs.
Proof.
  intros Hal. apply Forall_forall. intros item Hin.
  assert (H : In (index (h item)) (seq 0 (length itemPairs))).
  { rewrite <- Hal. apply in_map_iff. now exists item. }
  apply in_seq in H. lia.
Qed.

(** Both strategies, under the contract of [kmeans]: a partition. *)
Lemma strategies_partition (kmeans : KMeansClusteringAlgorithm.kmeans_t)
  (fuel : nat) (h : Heap) (shuffle : nat -> Q) (itemPairs : list ItemRef) :
  kmeans_contract kmeans ->
  (5 <= fuel)%nat ->
  Forall (fun item => (index (h item) < length itemPairs)%nat) itemPairs ->
  (exists cs,
     KMeansClusteringAlgorithm.computeClusters kmeans fuel h itemPairs
     = Some cs
     /\ Permutation (concat (map Cluster.itemPairs cs)) itemPairs)
  /\ (exists cs,
        RandomClusteringAlgorithm.computeClusters kmeans fuel h shuffle
                                                  itemPairs
        = Some cs
        /\ Permutation (concat (map Cluster.itemPairs cs)) itemPairs).
Proof.
  intros Hk Hfuel Hidx.
  unfold RandomClusteringAlgorithm.computeClusters.
  change RandomClusteringAlgorithm.clusterAmount
    with KMeansClusteringAlgorithm.clusterAmount.
  rewrite (computeClusters_seeds kmeans h itemPairs Hfuel).
  unfold KMeansClusteringAlgorithm.clusterAmount at 2.
  rewrite (cents_four _ Hfuel).
  set (coordinates := KMeansClusteringAlgorithm.coordinates h itemPairs).
  set (labels := kmeans coordinates _ _).
  destruct (Hk coordinates (map (Seeds.pick coordinates) seed_values))
    as [Hlen _].
  fold labels in Hlen.
  assert (Hlen' : length labels = length itemPairs).
  { rewrite Hlen. unfold coordinates, KMeansClusteringAlgorithm.coordinates.
    now rewrite !length_map. }
  rewrite <- Hlen' in Hidx.
  pose proof (@clusters_of_indexes_partition h itemPairs labels Hidx) as Hpart.
  split; eexists; (split; [reflexivity|]); [exact Hpart|].
  rewrite fill_members.
  rewrite <- (map_map Cluster.itemPairs (@length ItemRef)), <- length_concat.
  rewrite (Permutation_length Hpart).
  rewrite <- (Permutation_length (shuffleArray_perm shuffle itemPairs)).
  simpl. rewrite firstn_all. apply shuffleArray_perm.
Qed.

(** The first call, for a constructor whose clusters cover the todo list. *)
Lemma select_first_call {GameStatus : Type} (Finished : GameStatus)
  (construct : list ItemRef -> option ItemSelect.constructed)
  (h : Heap) (rnd : nat -> Q) (this : ItemSelect.game GameStatus ItemRef)
  (alg : t) :
  construct (ItemSelect.itemPairs this) = Some (ItemSelect.Built alg) ->
  (forall item, In item (ItemSelect.todo this) ->
                in_some_cluster (clusters alg) item = true) ->
  ItemSelect.selectionAlgorithm this = None ->
  ItemSelect.current this = None ->
  ItemSelect.todo this <> [] ->
  first_call_outcome h this (Some alg)
                     (ItemSelect.select Finished construct h rnd this).
Proof.
  intros Hc Hcover Hnone Hcur Hne.
  unfold ItemSelect.select, ItemSelect.update. rewrite Hnone, Hc, Hcur.
  assert (Hup : forall todo,
             updateToDo alg h rnd todo None = (alg, sortTodoList alg todo))
    by (intros todo; unfold updateToDo; now destruct (clusters alg)).
  rewrite Hup.
  assert (Hs : exists q, sortTodoList alg (ItemSelect.todo this) = JS.Ok q
                         /\ StronglySorted
                              (fun a b => (priority alg a <= priority alg b)%Z)
                              q).
  { unfold sortTodoList.
    destruct (length (ItemSelect.todo this) <? 2)%nat eqn:Hlen.
    - eexists. split; [reflexivity|]. apply Nat.ltb_lt in Hlen.
      destruct (ItemSelect.todo this) as [|a [|b rest]]; simpl in Hlen;
        try lia; repeat constructor.
    - replace (forallb _ (ItemSelect.todo this)) with true.
      + eexists. split; [reflexivity|]. apply (sort_sorted (priority alg)).
      + symmetry. apply forallb_forall. intros item Hitem.
        destruct (getClusterOfItem alg item) eqn:E; [reflexivity|].
        apply getClusterOfItem_none in E.
        rewrite (Hcover item Hitem) in E. discriminate. }
  destruct Hs as (q & Hq & Hsorted). rewrite Hq.
  pose proof (sortTodoList_perm _ _ Hq) as Hperm.
  destruct q as [|first rest].
  { exfalso. apply Hne. now apply Permutation_nil. }
  exists alg, (ItemSelect.mk (Some alg) (ItemSelect.itemPairs this)
                             (first :: rest) None (ItemSelect.status this)),
         first, rest.
  repeat split; try reflexivity; assumption.
Qed.

(** The constructor of a selector, when the seeds are there and [kmeans]
    returns. *)
Lemma construct_built
  (throws : list (Z * Z) -> nat -> list (option (Z * Z)) -> bool)
  (fuel : nat) (h : Heap)
  (new : list ItemRef -> option ClusteringAlgorithm.t)
  (itemPairs : list ItemRef) (alg : t) :
  (5 <= fuel)%nat ->
  (forall cents,
     throws (KMeansClusteringAlgorithm.coordinates h itemPairs)
            KMeansClusteringAlgorithm.clusterAmount cents = false) ->
  new itemPairs = Some alg ->
  ItemSelect.construct throws fuel h new itemPairs
  = Some (ItemSelect.Built alg).
Proof.
  intros Hfuel Hreturns Hnew. unfold ItemSelect.construct.
  unfold KMeansClusteringAlgorithm.clusterAmount at 1.
  rewrite (cents_four _ Hfuel), Hreturns, Hnew. reflexivity.
Qed.

(** X12. The first call of a session (no scheduler yet, no current item)
    goes through for both selectors when [kmeans] returns and keeps its
    contract, the items carry their positions as [index], and the todo
    list is a non-empty selection of the items: the scheduler is
    constructed and stored, the todo list comes back sorted by cluster
    priority, and the [index] of its first item is returned. *)
Theorem first_call_goes_through {GameStatus : Type} (Finished : GameStatus)
  (kmeans : KMeansClusteringAlgorithm.kmeans_t)
  (throws : list (Z * Z) -> nat -> list (option (Z * Z)) -> bool)
  (fuel : nat) (h : Heap) (shuffle rnd : nat -> Q)
  (this : ItemSelect.game GameStatus ItemRef) :
  kmeans_contract kmeans ->
  (forall cents,
     throws (KMeansClusteringAlgorithm.coordinates
               h (ItemSelect.itemPairs this))
            KMeansClusteringAlgorithm.clusterAmount cents = false) ->
  (5 <= fuel)%nat ->
  indexes_aligned h (ItemSelect.itemPairs this) ->
  incl (ItemSelect.todo this) (ItemSelect.itemPairs this) ->
  ItemSelect.todo this <> [] ->
  ItemSelect.selectionAlgorithm this = None ->
  ItemSelect.current this = None ->
  first_call_outcome h this
    (KMeansClusteringAlgorithm.new kmeans fuel h (ItemSelect.itemPairs this))
    (ItemSelect.kmeansClusterItemSelect Finished kmeans throws fuel h rnd this)
  /\ first_call_outcome h this
       (RandomClusteringAlgorithm.new kmeans fuel h shuffle
                                      (ItemSelect.itemPairs this))
       (ItemSelect.randomClusterItemSelect Finished kmeans throws fuel h
                                           shuffle rnd this).
Proof.
  intros Hk Hreturns Hfuel Hal Hincl Hne Hnone Hcur.
  destruct (@strategies_partition kmeans fuel h shuffle
              (ItemSelect.itemPairs this) Hk Hfuel
              (@aligned_in_range h (ItemSelect.itemPairs this) Hal))
    as [(cv & Ev & Pv) (cr & Er & Pr)].
  split.
  - unfold KMeansClusteringAlgorithm.new,
           ItemSelect.kmeansClusterItemSelect.
    rewrite Ev. simpl option_map.
    apply select_first_call; try assumption.
    + apply construct_built; try assumption.
      unfold KMeansClusteringAlgorithm.new. now rewrite Ev.
    + intros item Hitem. simpl clusters.
      apply (@partition_covers cv (ItemSelect.itemPairs this) item Pv).
      now apply Hincl.
  - unfold RandomClusteringAlgorithm.new,
           ItemSelect.randomClusterItemSelect.
    rewrite Er. simpl option_map.
    apply select_first_call; try assumption.
    + apply construct_built; try assumption.
      unfold RandomClusteringAlgorithm.new. now rewrite Er.
    + intros item Hitem. simpl clusters.
      apply (@partition_covers cr (ItemSelect.itemPairs this) item Pr).
      now apply Hincl.
Qed.

Lemma first_call_goes_through_witness :
  first_call_outcome on_a_line (fresh_game [4; 0; 3; 1; 2]%nat)
    (KMeansClusteringAlgorithm.new nearest_centroid 5 on_a_line five_items)
    (ItemSelect.kmeansClusterItemSelect true nearest_centroid
       throws_on_no_data 5 on_a_line alternating
       (fresh_game [4; 0; 3; 1; 2]%nat))
  /\ first_call_outcome on_a_line (fresh_game [4; 0; 3; 1; 2]%nat)
       (RandomClusteringAlgorithm.new nearest_centroid 5 on_a_line
                                      alternating five_items)
       (ItemSelect.randomClusterItemSelect true nearest_centroid
          throws_on_no_data 5 on_a_line alternating alternating
          (fresh_game [4; 0; 3; 1; 2]%nat)).
Proof.
  apply (@first_call_goes_through bool true nearest_centroid
           throws_on_no_data 5 on_a_line alternating alternating
           (fresh_game [4; 0; 3; 1; 2]%nat)).
  - exact nearest_centroid_contract.
  - reflexivity.
  - lia.
  - reflexivity.
  - intros item Hitem. simpl in *. intuition.
  - discriminate.
  - reflexivity.
  - reflexivity.
Defined.

(* ================================================================== *)
(** ** Rounds: one step per call, and the overrun *)
(* ================================================================== *)

(** X13. A call moves the scheduler on by one round at most, however many
    answers the current item has: after [n] calls [roundID] has grown by no
    more than [n]. *)
Theorem run_roundID_bound (calls : list call) (this : t) :
  (roundID this <= roundID (run this calls)
   <= roundID this + length calls)%nat.
Proof.
  revert this. induction calls as [|c calls IH]; intros this; [simpl; lia|].
  simpl. specialize (IH (step this c)).
  destruct (step_progress this c) as [E|E]; inversion E as [[Hr Hid Hp Ht Hn]];
    simpl in *; lia.
Qed.

Lemma get_beyond (rounds : list Z) (i : nat) :
  (length rounds <= i)%nat -> JS.get rounds i = JS.Undefined.
Proof.
  intros Hi. unfold JS.get.
  now rewrite (proj2 (nth_error_None rounds i) Hi).
Qed.

Lemma step_overrun (this : t) (c : call) :
  overrun this -> overrun (step this c).
Proof.
  intros (Hid & Hneed & Hnan). unfold overrun.
  destruct (step_progress this c) as [E|E]; unfold progress in E;
    injection E as Hr Hi Hp Ht Hn; simpl in Hr, Hi, Ht, Hn;
    rewrite Hr, Hi, Ht, Hn.
  - auto.
  - rewrite get_beyond by lia. rewrite Hnan. split; [lia|]. now split.
Qed.

Lemma run_overrun (calls : list call) (this : t) :
  overrun this -> overrun (run this calls).
Proof.
  revert this. induction calls as [|c calls IH]; intros this H; [exact H|].
  simpl. apply IH, step_overrun, H.
Qed.

(** X14. The overrun.  When, in the last round, a steady-state call meets
    a current item with more answers than [needToGoToNextRound], the
    scheduler leaves its schedule, and the session can no longer finish:
    whatever calls follow, no steady-state call returns the empty array
    again. *)
Theorem overrun_never_finishes (this : t) (h : Heap) (rnd : nat -> Q)
  (todo : list ItemRef) (cur : ItemRef) (calls : list call)
  (h' : Heap) (rnd' : nat -> Q) (todo' : list ItemRef) (cur' : ItemRef)
  (this' : t) (q' : list ItemRef) :
  clusters this <> [] ->
  (roundID this + 1)%nat = length (rounds this) ->
  JS.gt (JS.Num (Z.of_nat (answers_length (h cur))))
        (needToGoToNextRound this) = true ->
  updateToDo (run (step this (h, rnd, todo, Some cur)) calls)
             h' rnd' todo' (Some cur')
  = (this', JS.Ok q') ->
  q' <> [].
Proof.
  intros Hcl Hlast Hgt Hcall.
  assert (Hover : overrun (step this (h, rnd, todo, Some cur))).
  { assert (Hp : progress (step this (h, rnd, todo, Some cur))
                 = progress (advanceRound this)).
    { unfold step, updateToDo.
      destruct (clusters this) as [|c0 cs]; [contradiction|].
      rewrite Hgt.
      destruct (getClusterOfItem (advanceRound this) cur) as [cc|];
        [|reflexivity].
      simpl fst. now destruct (JS.strict_eq _ _). }
    set (s1 := step this (h, rnd, todo, Some cur)) in *.
    unfold progress in Hp. injection Hp as Hr Hi Hpr Ht Hn.
    simpl in Hr, Hi, Ht, Hn. unfold overrun.
    rewrite Hr, Hi, Hn, Ht, get_beyond by lia.
    split; [lia|]. split; [reflexivity|].
    now destruct (needToGoToNextRound this). }
  set (s := run (step this (h, rnd, todo, Some cur)) calls) in *.
  assert (Hs : overrun s) by now apply run_overrun.
  assert (Hcls : clusters s <> []).
  { intros E.
    pose proof (run_keeps_members_length
                  ((h, rnd, todo, Some cur) :: calls) this) as Hlen.
    change (run this ((h, rnd, todo, Some cur) :: calls)) with s in Hlen.
    rewrite E in Hlen.
    destruct (clusters this); [contradiction|discriminate]. }
  pose proof (updateToDo_rounds s h' rnd' todo' (Some cur')) as Hr.
  rewrite Hcall in Hr. simpl in Hr.
  assert (Hid : (length (rounds s) <= roundID this')%nat).
  { destruct Hs as (Hid & _).
    pose proof (run_roundID [(h', rnd', todo', Some cur')] s) as Hm.
    simpl in Hm. unfold step in Hm. rewrite Hcall in Hm. simpl in Hm. lia. }
  destruct (updateToDo_steady_inv _ _ _ _ _ Hcls Hcall)
    as (todo2 & finished & Hperm & Hne & Hend & ->).
  apply endOfSession_true in Hend.
  destruct finished.
  - destruct (proj1 Hend eq_refl) as [_ Hlen]. rewrite Hr in Hlen. lia.
  - intros E. apply Hne. apply Permutation_nil. rewrite <- E.
    apply avoidRepeat_perm.
Qed.

(** The last round of five items; item [1] has been answered an eighth
    time.  The next call, with seven answers everywhere else, would have
    ended the session. *)
Lemma overrun_never_finishes_witness :
  exists this' q',
    updateToDo (run (step last_round_scheduler
                          (one_ahead 7 1, alternating, five_items,
                           Some 1%nat))
                    [])
               (answered 7) alternating five_items (Some 0%nat)
    = (this', JS.Ok q')
    /\ q' <> [].
Proof.
  eexists. eexists. split; [vm_compute; reflexivity|].
  eapply (@overrun_never_finishes last_round_scheduler (one_ahead 7 1)
            alternating five_items 1%nat [] (answered 7) alternating
            five_items 0%nat).
  - discriminate.
  - reflexivity.
  - reflexivity.
  - vm_compute. reflexivity.
Defined.

(** X15. A pass is registered once: for a cluster with at least one member,
    [getTimesSeen] called again on the same answers changes nothing and
    returns the same number.  (A cluster without members would count a pass
    on every call.) *)
Theorem getTimesSeen_once (h : Heap) (c : Cluster.t) :
  Cluster.itemPairs c <> [] ->
  Cluster.getTimesSeen h (fst (Cluster.getTimesSeen h c))
  = (fst (Cluster.getTimesSeen h c), snd (Cluster.getTimesSeen h c)).
Proof.
  intros Hne. unfold Cluster.getTimesSeen at 2 3 4.
  destruct (Cluster.allWordsSeenOnce h c) eqn:E.
  - simpl fst. simpl snd. unfold Cluster.getTimesSeen.
    replace (Cluster.allWordsSeenOnce h _) with false; [reflexivity|].
    symmetry. rewrite allWordsSeenOnce_forallb in E |- *. simpl.
    destruct (Cluster.itemPairs c) as [|item rest]; [contradiction|].
    simpl in E |- *. apply andb_true_iff in E as [E _].
    apply Z.eqb_eq in E. apply andb_false_iff. left.
    apply Z.eqb_neq. lia.
  - simpl fst. simpl snd. unfold Cluster.getTimesSeen. now rewrite E.
Qed.

Lemma getTimesSeen_once_witness :
  Cluster.getTimesSeen (answered 7)
    (fst (Cluster.getTimesSeen (answered 7) (Cluster.mk 0 0 6 [0; 1]%nat)))
  = (fst (Cluster.getTimesSeen (answered 7) (Cluster.mk 0 0 6 [0; 1]%nat)),
     snd (Cluster.getTimesSeen (answered 7) (Cluster.mk 0 0 6 [0; 1]%nat))).
Proof.
  apply getTimesSeen_once. discriminate.
Defined.

(* ================================================================== *)
(** ** updateToDo: the order of the returned array *)
(* ================================================================== *)

Lemma sortTodoList_sorted (this : t) (todo q : list ItemRef) :
  sortTodoList this todo = JS.Ok q ->
  StronglySorted (fun a b => (priority this a <= priority this b)%Z) q.
Proof.
  unfold sortTodoList.
  destruct (length todo <? 2)%nat eqn:Hlen.
  - intros [= <-]. apply Nat.ltb_lt in Hlen.
    destruct todo as [|a [|b rest]]; simpl in Hlen; try lia;
      repeat constructor.
  - destruct (forallb _ todo); [|discriminate]. intros [= <-].
    apply (sort_sorted (priority this)).
Qed.

(** A steady-state call that returns a non-empty array returns the sorted
    array, but for the swap. *)
Lemma updateToDo_steady_sorted (this : t) (h : Heap) (rnd : nat -> Q)
  (todo : list ItemRef) (cur : ItemRef) (this' : t) (q' : list ItemRef) :
  clusters this <> [] ->
  updateToDo this h rnd todo (Some cur) = (this', JS.Ok q') ->
  q' <> [] ->
  exists sorted : list ItemRef,
    StronglySorted (fun a b => (priority this' a <= priority this' b)%Z)
                   sorted
    /\ q' = avoidRepeat (JS.last_elem todo) sorted.
Proof.
  intros Hcl. unfold updateToDo.
  destruct (clusters this) as [|c0 cs] eqn:Ecl; [contradiction|].
  set (this1 := if JS.gt _ _ then advanceRound this else this).
  destruct (getClusterOfItem this1 cur) as [cc|]; [|discriminate].
  set (this3 := if JS.strict_eq _ _ then _ else _).
  set (todo1 := if Cluster.allWordsSeenOnce h cc then _ else todo).
  intros [= <- Hres] Hq.
  destruct (sortTodoList this3 todo1) as [todo2|] eqn:Esort; [|discriminate].
  simpl in Hres.
  destruct todo2 as [|a rest]; [discriminate|].
  destruct (endOfSession this3 h (avoidRepeat (JS.last_elem todo) (a :: rest)))
    as [finished|]; [|discriminate].
  simpl in Hres. injection Hres as <-.
  destruct finished; [contradiction|].
  exists (a :: rest). split; [|reflexivity].
  now apply sortTodoList_sorted with todo1.
Qed.

(** X16. The array a steady-state call returns is in ascending order of
    cluster priority from its second item on.  Its first item is out of
    that order only through the swap: then the item after it is the one
    shown before, which sorting had brought to the front. *)
Theorem updateToDo_order (this : t) (h : Heap) (rnd : nat -> Q)
  (todo : list ItemRef) (cur : ItemRef) (this' : t) (q' : list ItemRef) :
  clusters this <> [] ->
  updateToDo this h rnd todo (Some cur) = (this', JS.Ok q') ->
  q' <> [] ->
  StronglySorted (fun a b => (priority this' a <= priority this' b)%Z)
                 (tl q')
  /\ (StronglySorted (fun a b => (priority this' a <= priority this' b)%Z) q'
      \/ exists first second rest,
           q' = first :: second :: rest
           /\ JS.last_elem todo = Some second
           /\ (priority this' second <= priority this' first)%Z).
Proof.
  intros Hcl Hcall Hq.
  destruct (updateToDo_steady_sorted _ _ _ _ _ Hcl Hcall Hq)
    as (sorted & Hs & ->).
  destruct sorted as [|a rest]; [contradiction|].
  simpl. destruct (JS.last_elem todo) as [p|].
  - unfold same_item. destruct (Nat.eqb_spec a p) as [->|Hne].
    + destruct rest as [|b rest']; simpl.
      * split; [constructor|left; exact Hs].
      * inversion Hs as [|? ? Hs' Ha]; subst.
        inversion Hs' as [|? ? Hs'' Hb]; subst.
        inversion Ha as [|? ? Hab Ha']; subst.
        split; [constructor; assumption|].
        right. exists b, p, rest'. repeat split. exact Hab.
    + simpl. split; [now inversion Hs|left; exact Hs].
  - simpl. split; [now inversion Hs|left; exact Hs].
Qed.

(** After the first answer to item [0], last in the array: [0] is sorted
    to the front and swapped with [2]. *)
Lemma updateToDo_order_witness :
  exists this',
    updateToDo two_cluster_scheduler (first_answer_of 0) alternating
               [2; 3; 0]%nat (Some 0%nat)
    = (this', JS.Ok [2; 0; 3]%nat)
    /\ StronglySorted (fun a b => (priority this' a <= priority this' b)%Z)
                      (tl [2; 0; 3]%nat)
    /\ (StronglySorted
          (fun a b => (priority this' a <= priority this' b)%Z)
          [2; 0; 3]%nat
        \/ exists first second rest,
             [2; 0; 3]%nat = first :: second :: rest
             /\ JS.last_elem [2; 3; 0]%nat = Some second
             /\ (priority this' second <= priority this' first)%Z).
Proof.
  eexists. split; [vm_compute; reflexivity|].
  eapply (@updateToDo_order two_cluster_scheduler (first_answer_of 0)
            alternating [2; 3; 0]%nat 0%nat).
  - discriminate.
  - vm_compute. reflexivity.
  - discriminate.
Defined.
